(** * Arguments.ts: declaration and resolution of command-line arguments

    A shallow embedding of [src/lib/Arguments.ts] and the properties of its
    expectation normalizer ([#createExpectations]) and resolution engine
    ([getRaw], [get], [shouldHelp], [setVersion], [getHelpMessage]).

    JavaScript strings are sequences of UTF-16 code units, values are a
    tagged union, a thrown exception is an abrupt completion, and the
    private fields of the class are the fields of a record that the
    setters rebuild. *)

From Stdlib Require Import NArith List String Ascii Floats Lia Bool.
From stdpp Require Import base decidable option countable gmap list.
Import ListNotations.

Set Warnings "-register-all".
Local Open Scope N_scope.

(** ** Strings *)

(** A UTF-16 code unit. *)
Definition char := N.

(** A JavaScript string. *)
Definition jsstring := list char.

(** An ASCII literal as a JavaScript string. *)
Definition js (s : string) : jsstring :=
  List.map N_of_ascii (list_ascii_of_string s).
Arguments js s%_string.

(** [WhiteSpace] and [LineTerminator] of ECMAScript: what [String.prototype.trim]
    strips and what [\s] matches in a regular expression without the [u] flag. *)
Definition is_ws (c : char) : bool :=
  ((0x09 <=? c) && (c <=? 0x0D))
  || (c =? 0x20) || (c =? 0xA0) || (c =? 0x1680)
  || ((0x2000 <=? c) && (c <=? 0x200A))
  || (c =? 0x2028) || (c =? 0x2029) || (c =? 0x202F) || (c =? 0x205F)
  || (c =? 0x3000) || (c =? 0xFEFF).

(** [[0-9]] *)
Definition is_digit (c : char) : bool := (0x30 <=? c) && (c <=? 0x39).

Definition comma : char := 0x2C.
Definition dot : char := 0x2E.
Definition letter_v : char := 0x76.
Definition newline : char := 0x0A.

(** The longest prefix of code units satisfying [p], and what follows it:
    a greedy [p*] that nothing forces to backtrack. *)
Fixpoint skip (p : char -> bool) (s : jsstring) : jsstring :=
  match s with
  | c :: r => if p c then skip p r else s
  | [] => []
  end.

Fixpoint span (p : char -> bool) (s : jsstring) : jsstring :=
  match s with
  | c :: r => if p c then c :: span p r else []
  | [] => []
  end.

(** [String.prototype.trim] *)
Definition trimStart (s : jsstring) : jsstring := skip is_ws s.
Definition trimEnd (s : jsstring) : jsstring := rev (skip is_ws (rev s)).
Definition trim (s : jsstring) : jsstring := trimEnd (trimStart s).

(** [Array.prototype.join] on an array of strings. *)
Fixpoint join (sep : jsstring) (l : list jsstring) : jsstring :=
  match l with
  | [] => []
  | x :: r => match r with [] => x | _ :: _ => x ++ sep ++ join sep r end
  end.

(** [String.prototype.split] with a separator of one code unit. *)
Fixpoint split_on (sep : char) (s : jsstring) : list jsstring :=
  match s with
  | [] => [[]]
  | c :: r =>
      if c =? sep then [] :: split_on sep r
      else match split_on sep r with
           | t :: ts => (c :: t) :: ts
           | [] => [[c]]
           end
  end.

(** ** Regular expressions of the source *)

(** [RegExp.prototype[Symbol.split]] for a pattern without capture groups.
    [m rest] is the pattern anchored at the current position: the length of
    its match, if it matches.  [tok] is the text between the end of the last
    separator (position [p]) and the current position [q]; [rest] is the text
    from [q] on.  A match is refused when it is empty and ends at [p]. *)
Fixpoint split_loop (fuel : nat) (m : jsstring -> option nat)
    (tok rest : jsstring) : list jsstring :=
  match fuel with
  | O => [tok ++ rest]
  | S fuel' =>
      match rest with
      | [] => [tok]
      | c :: rest' =>
          match m rest with
          | None => split_loop fuel' m (tok ++ [c]) rest'
          | Some len =>
              if Nat.eqb len 0 && Nat.eqb (length tok) 0
              then split_loop fuel' m (tok ++ [c]) rest'
              else tok :: split_loop fuel' m [] (drop len rest)
          end
      end
  end.

Definition regexp_split (m : jsstring -> option nat) (s : jsstring)
    : list jsstring :=
  match s with
  | [] => match m [] with Some _ => [] | None => [[]] end
  | _ :: _ => split_loop (2 * length s + 1) m [] s
  end.

(** [/\s+|\s*,\s*/] anchored at the head of [s].  The first alternative is
    tried first and wins whenever the head is white space; the second is
    reached only at a head that is not white space, so its leading [\s*]
    matches nothing there. *)
Definition match_separator (s : jsstring) : option nat :=
  match s with
  | [] => None
  | c :: r =>
      if is_ws c then Some (length (span is_ws s))
      else if c =? comma then Some (S (length (span is_ws r)))
      else None
  end.

(** [(\.[0-9]+)*] anchored at the head of [s]: the length matched. *)
Fixpoint match_dotted (fuel : nat) (s : jsstring) : nat :=
  match fuel with
  | O => O
  | S fuel' =>
      match s with
      | c :: r =>
          if c =? dot then
            match length (span is_digit r) with
            | O => O
            | S n => (S (S n) + match_dotted fuel' (drop (S n) r))%nat
            end
          else O
      | [] => O
      end
  end.

(** The pattern of [setVersion] anchored at the head of [s]: the letter [v],
    then the capture group, [[0-9]+] followed by [(\.[0-9]+)*].  The result is
    the length of the match and the text of the capture group. *)
Definition match_version (s : jsstring) : option (nat * jsstring) :=
  match s with
  | c :: r =>
      if c =? letter_v then
        match length (span is_digit r) with
        | O => None
        | S n =>
            let len := (S n + match_dotted (length r) (drop (S n) r))%nat in
            Some (S len, take len r)
        end
      else None
  | [] => None
  end.

(** [String.prototype.replace] with a global pattern [m] and a replacer
    function that receives the first capture group: every match, found
    from left to right, is replaced and the text between matches is copied. *)
Fixpoint replace_loop (fuel : nat) (m : jsstring -> option (nat * jsstring))
    (replacer : jsstring -> jsstring) (s : jsstring) : jsstring :=
  match fuel with
  | O => s
  | S fuel' =>
      match m s with
      | Some (len, p1) =>
          match len, s with
          | O, c :: r => replacer p1 ++ c :: replace_loop fuel' m replacer r
          | O, [] => replacer p1
          | S _, _ => replacer p1 ++ replace_loop fuel' m replacer (drop len s)
          end
      | None =>
          match s with
          | c :: r => c :: replace_loop fuel' m replacer r
          | [] => []
          end
      end
  end.

Definition regexp_replace (m : jsstring -> option (nat * jsstring))
    (replacer : jsstring -> jsstring) (s : jsstring) : jsstring :=
  replace_loop (S (length s)) m replacer s.

(** ** Values *)

(** A JavaScript value.  Numbers are IEEE 754 doubles; a built-in function
    is told by its name. *)
Inductive value :=
| VUndefined
| VNull
| VBool (b : bool)
| VNum (f : float)
| VStr (s : jsstring)
| VArr (items : list value)
| VObj (fields : list (jsstring * value))
| VFun (name : jsstring).

(** [ToBoolean] *)
Definition to_boolean (v : value) : bool :=
  match v with
  | VUndefined | VNull => false
  | VBool b => b
  | VNum f => negb (PrimFloat.eqb f 0 || negb (PrimFloat.eqb f f))
  | VStr s => negb (Nat.eqb (length s) 0)
  | VArr _ | VObj _ | VFun _ => true
  end.

(** [v !== undefined] *)
Definition is_defined (v : value) : bool :=
  match v with VUndefined => false | _ => true end.

(** [a ?? b] *)
Definition nullish (a b : value) : value :=
  match a with
  | VUndefined | VNull => b
  | _ => a
  end.

(** What the flag parser ([parse] of the standard [flags] module) stores
    under a flag name: a boolean, a number, a string, an array of them for a
    repeated flag, or a nested object for a dotted flag name. *)
Inductive flag_value :=
| FBool (b : bool)
| FNum (f : float)
| FStr (s : jsstring)
| FArr (items : list value)
| FObj (fields : list (jsstring * value)).

Definition flag_to_value (f : flag_value) : value :=
  match f with
  | FBool b => VBool b
  | FNum x => VNum x
  | FStr s => VStr s
  | FArr l => VArr l
  | FObj l => VObj l
  end.

(** ** Exceptions *)

(** Modelled from the spec: the classes of [Exception.ts], [HelpException.ts]
    and [ValueException.ts], which are not among the sources.  The help-requested
    and the value-error signal belong to one family, whose root is
    [Exception]; the built-in [Error] is outside it. *)
Inductive error_class := BuiltinError | Exception | HelpException | ValueException.

Record js_error := mk_error { err_class : error_class; err_message : jsstring }.

(** [e instanceof Exception] *)
Definition instanceof_Exception (e : js_error) : bool :=
  match err_class e with
  | BuiltinError => false
  | Exception | HelpException | ValueException => true
  end.

(** The completion of a call: a returned value or a thrown error. *)
Inductive completion (A : Type) :=
| Return (a : A)
| Throw (e : js_error).
Arguments Return {A} a.
Arguments Throw {A} e.

(** ** Expectations *)

Definition ConverterType := value -> completion value.

Inductive name_type :=
| NameString (n : jsstring)
| NameArray (n : list jsstring).

(** A declaration as the caller writes it.  An optional property that is
    left out is [None], or [VUndefined] for [default]. *)
Record ExpectationType := {
  ex_name : name_type;
  ex_default : value;
  ex_description : option jsstring;
  ex_convertor : option ConverterType
}.

(** An element of [#expectations].  [description] is [None] for [null]. *)
Record Expectation := {
  names : list jsstring;
  description : option jsstring;
  default : value;
  convertor : ConverterType
}.

Definition createNames (n : name_type) : list jsstring :=
  match n with
  | NameString s => regexp_split match_separator (trim s)
  | NameArray l => List.map trim l
  end.

Definition createDescription (des : option jsstring) : option jsstring :=
  match des with
  | Some d => if to_boolean (VStr d) then Some (trim d) else None
  | None => None
  end.

Definition createExpectation (ex : ExpectationType) : Expectation :=
  {| names := createNames (ex_name ex);
     description := createDescription (ex_description ex);
     default := nullish (ex_default ex) VNull;
     convertor := match ex_convertor ex with
                  | Some f => f
                  | None => fun v => Return v
                  end |}.

Definition createExpectations (expectation : list ExpectationType)
    : list Expectation :=
  List.map createExpectation expectation.

(** ** The class *)

Record Arguments := {
  raw : gmap jsstring flag_value;
  expectations : list Expectation;
  desciprion : option jsstring;
  version : option jsstring
}.

(** [new Arguments(...expectations)], with the parsed [Deno.args] given. *)
Definition constructor (parsed : gmap jsstring flag_value)
    (decls : list ExpectationType) : Arguments :=
  {| raw := parsed;
     expectations := createExpectations decls;
     desciprion := None;
     version := None |}.

(** The string-named members of [Object.prototype], which the plain object
    that [parse] returns inherits.  (Deno deletes the [__proto__] accessor
    at startup, so it is not among them.) *)
Definition object_prototype_members : list jsstring :=
  [js "constructor"; js "hasOwnProperty"; js "isPrototypeOf";
   js "propertyIsEnumerable"; js "toLocaleString"; js "toString";
   js "valueOf"; js "__defineGetter__"; js "__defineSetter__";
   js "__lookupGetter__"; js "__lookupSetter__"].

(** What a property read finds on the prototype: the built-in function of
    that name, or nothing. *)
Definition inherited (name : jsstring) : value :=
  if bool_decide (name ∈ object_prototype_members)
  then VFun name
  else VUndefined.

(** [this.#raw[name]]: the flag stored under the name, an own property of
    the parsed object, or else the member of that name the object inherits,
    or else [undefined]. *)
Definition raw_get (a : Arguments) (name : jsstring) : value :=
  match raw a !! name with
  | Some f => flag_to_value f
  | None => inherited name
  end.

Fixpoint getRaw (a : Arguments) (names : list jsstring) : value :=
  match names with
  | [] => VUndefined
  | name :: rest =>
      if is_defined (raw_get a name) then raw_get a name else getRaw a rest
  end.

(** [Array.prototype.find]: the first element whose predicate result is truthy. *)
Fixpoint array_find {A : Type} (pred : A -> value) (l : list A) : option A :=
  match l with
  | [] => None
  | x :: r => if to_boolean (pred x) then Some x else array_find pred r
  end.

(** The result of a [find] over strings, as the value the caller sees. *)
Definition found_string (r : option jsstring) : value :=
  match r with
  | Some s => VStr s
  | None => VUndefined
  end.

Definition find_expectation (a : Arguments) (name : jsstring)
    : option Expectation :=
  array_find
    (fun ex => found_string
       (array_find (fun n => VBool (bool_decide (n = name))) (names ex)))
    (expectations a).

Definition not_found_message (name : jsstring) : jsstring :=
  js "Argument " ++ [0x22] ++ name ++ [0x22] ++ js " is not found.".

Definition get (a : Arguments) (name : jsstring) : completion value :=
  match find_expectation a name with
  | None => Throw (mk_error BuiltinError (not_found_message name))
  | Some expectation =>
      let value := getRaw a (names expectation) in
      convertor expectation (nullish value (default expectation))
  end.

Definition shouldHelp (a : Arguments) : bool :=
  to_boolean (getRaw a [js "help"]).

Definition setDescription (a : Arguments) (d : jsstring) : Arguments :=
  {| raw := raw a; expectations := expectations a;
     desciprion := Some d; version := version a |}.

Definition setVersion (a : Arguments) (v : jsstring) : Arguments :=
  {| raw := raw a; expectations := expectations a;
     desciprion := desciprion a;
     version := Some (regexp_replace match_version (fun p1 => p1) v) |}.

Definition createValueException (message : jsstring) : js_error :=
  mk_error ValueException message.

Definition isArgumentException (e : js_error) : bool := instanceof_Exception e.

(** ** The help message *)

Section HelpMessage.

(** [bold], [italic] and [gray] of [helpers/colors.ts] and
    [Deno.inspect(_, { colors: true })] decorate text for the terminal;
    the message is built around whatever they return. *)
Variables bold italic gray : jsstring -> jsstring.
Variable inspect : value -> jsstring.

Definition indent : jsstring := js "        ".

(** ['Výchozí hodnota:'] *)
Definition default_label : jsstring :=
  js "V" ++ [0xFD] ++ js "choz" ++ [0xED] ++ js " hodnota:".

(** The array [lines] of one expectation after its pushes. *)
Definition doc_lines (ex : Expectation) : list jsstring :=
  let names :=
    join (js ", ") (List.map (fun n => js "--" ++ bold n) (names ex)) in
  let lines := [js "  " ++ names] in
  let lines :=
    match description ex with
    | Some d =>
        if to_boolean (VStr d)
        then lines ++ List.map (fun d => indent ++ gray d) (split_on newline d)
        else lines
    | None => lines
    end in
  let lines :=
    match default ex with
    | VNull => lines
    | d => lines ++ [indent ++ gray default_label ++ js " " ++ inspect d]
    end in
  lines.

Definition doc (ex : Expectation) : jsstring :=
  join [newline] ([] :: doc_lines ex ++ [[]]).

Definition docs (a : Arguments) : jsstring :=
  join [newline] (List.map doc (expectations a)).

Definition metadata_lines (a : Arguments) : list jsstring :=
  let description :=
    match desciprion a with
    | Some d => if to_boolean (VStr d) then [d] else []
    | None => []
    end in
  match version a with
  | Some v =>
      if to_boolean (VStr v)
      then description ++ [gray (italic (js "Verze: " ++ v))]
      else description
  | None => description
  end.

Definition getHelpMessage (a : Arguments) : jsstring :=
  join [newline]
    (List.filter (fun s => negb (Nat.eqb (length s) 0))
       [join [0x0D; 0x0A] (metadata_lines a); docs a]).

Definition triggerHelpException (a : Arguments) : js_error :=
  mk_error HelpException (getHelpMessage a).

(** *** Calls on an instance *)

(** A call of a public method with its arguments.  [get] calls the convertor
    as a method of the stored expectation and hands it the stored default
    itself, not a copy, so the convertor can assign the fields of the records
    and change the defaults in place: [effect] is what the convertor run by
    that call does to the stored expectations, the identity for a convertor
    that only computes. *)
Inductive call :=
| CallGetRaw (names : list jsstring)
| CallGet (name : jsstring) (effect : list Expectation -> list Expectation)
| CallShouldHelp
| CallSetDescription (description : jsstring)
| CallSetVersion (version : jsstring)
| CallGetHelpMessage
| CallTriggerHelpException.

(** The instance after the call and the completion of the call. *)
Definition perform (a : Arguments) (c : call) : Arguments * completion value :=
  match c with
  | CallGetRaw names => (a, Return (getRaw a names))
  | CallGet name effect =>
      match find_expectation a name with
      | Some _ =>
          ({| raw := raw a; expectations := effect (expectations a);
              desciprion := desciprion a; version := version a |},
           get a name)
      | None => (a, get a name)
      end
  | CallShouldHelp => (a, Return (VBool (shouldHelp a)))
  | CallSetDescription d => (setDescription a d, Return VUndefined)
  | CallSetVersion v => (setVersion a v, Return VUndefined)
  | CallGetHelpMessage => (a, Return (VStr (getHelpMessage a)))
  | CallTriggerHelpException => (a, Throw (triggerHelpException a))
  end.


(** The instance after a sequence of calls, whatever each call completes
    with (a caller that catches). *)
Fixpoint perform_all (a : Arguments) (cs : list call) : Arguments :=
  match cs with
  | [] => a
  | c :: r => perform_all (fst (perform a c)) r
  end.

End HelpMessage.

(** * Properties *)

(** ** Lookup of an expectation *)

Lemma array_find_Some {A : Type} (pred : A -> value) (l : list A) (x : A) :
  array_find pred l = Some x -> In x l /\ to_boolean (pred x) = true.
Proof.
  induction l as [|y l IH]; simpl; [discriminate|].
  destruct (to_boolean (pred y)) eqn:E.
  - intros [= <-]. auto.
  - intros H. destruct (IH H). auto.
Qed.

Lemma array_find_None {A : Type} (pred : A -> value) (l : list A) :
  (forall x, In x l -> to_boolean (pred x) = false) -> array_find pred l = None.
Proof.
  induction l as [|y l IH]; simpl; intros H; [reflexivity|].
  rewrite (H y) by auto. apply IH. auto.
Qed.

(** The inner [find] of [get] returns the alias it found, and the outer
    [find] reads that string as a boolean. *)
Lemma alias_test_true (name : jsstring) (l : list jsstring) :
  to_boolean
    (found_string (array_find (fun n => VBool (bool_decide (n = name))) l)) = true
  -> In name l /\ name <> [].
Proof.
  destruct (array_find _ l) as [n|] eqn:E; simpl; [|discriminate].
  apply array_find_Some in E as [Hin Hb]. simpl in Hb.
  apply bool_decide_eq_true in Hb. subst n.
  destruct name; simpl; [discriminate|]. intros _. split; [assumption|discriminate].
Qed.

Lemma alias_test_false (name : jsstring) (l : list jsstring) :
  ~ In name l ->
  found_string (array_find (fun n => VBool (bool_decide (n = name))) l)
  = VUndefined.
Proof.
  intros H. rewrite array_find_None; [reflexivity|].
  intros n Hn. simpl. apply bool_decide_eq_false. intros ->. auto.
Qed.

Lemma find_expectation_Some (a : Arguments) (name : jsstring) (ex : Expectation) :
  find_expectation a name = Some ex ->
  In ex (expectations a) /\ In name (names ex) /\ name <> [].
Proof.
  unfold find_expectation. intros H.
  apply array_find_Some in H as [Hin Hb].
  split; [assumption|]. now apply alias_test_true.
Qed.

Lemma find_expectation_declared (parsed : gmap jsstring flag_value)
    (decls : list ExpectationType) (name : jsstring) (ex : Expectation) :
  find_expectation (constructor parsed decls) name = Some ex ->
  exists d, In d decls /\ ex = createExpectation d /\ In name (names ex).
Proof.
  intros H. apply find_expectation_Some in H as (Hin & Hname & _).
  simpl in Hin. unfold createExpectations in Hin.
  apply in_map_iff in Hin as (d & <- & Hd). eauto.
Qed.

Lemma alias_test_found (name : jsstring) (l : list jsstring) :
  In name l ->
  found_string (array_find (fun n => VBool (bool_decide (n = name))) l)
  = VStr name.
Proof.
  induction l as [|n l IH]; intros Hin; [destruct Hin|].
  cbn [array_find to_boolean]. destruct (bool_decide (n = name)) eqn:E.
  - apply bool_decide_eq_true in E. now subst.
  - apply bool_decide_eq_false in E. destruct Hin as [->|Hin]; [congruence|].
    now apply IH.
Qed.

Lemma array_find_first {A : Type} (pred : A -> value) (pre post : list A) (x : A) :
  (forall y, In y pre -> to_boolean (pred y) = false) ->
  to_boolean (pred x) = true ->
  array_find pred (pre ++ x :: post) = Some x.
Proof.
  intros Hpre Hx. induction pre as [|y pre IH]; simpl.
  - now rewrite Hx.
  - rewrite (Hpre y) by (simpl; auto). apply IH. intros z Hz. apply Hpre. simpl. auto.
Qed.

Lemma find_expectation_first (a : Arguments) (name : jsstring)
    (pre post : list Expectation) (ex : Expectation) :
  expectations a = pre ++ ex :: post ->
  name <> [] -> In name (names ex) ->
  (forall ex', In ex' pre -> ~ In name (names ex')) ->
  find_expectation a name = Some ex.
Proof.
  intros Hexp Hne Hin Hpre. unfold find_expectation. rewrite Hexp.
  apply array_find_first.
  - intros ex' Hex'. now rewrite (alias_test_false name _ (Hpre ex' Hex')).
  - rewrite (alias_test_found name _ Hin). now destruct name.
Qed.

(** Some expectation holds the name, so a first one does. *)
Lemma first_holder (name : jsstring) (exps : list Expectation) :
  (exists ex, In ex exps /\ In name (names ex)) ->
  exists pre ex post,
    exps = pre ++ ex :: post /\ In name (names ex)
    /\ forall ex', In ex' pre -> ~ In name (names ex').
Proof.
  induction exps as [|e exps IH]; intros (ex & Hin & Hname); [destruct Hin|].
  destruct (decide (name ∈ names e)) as [He|He].
  - exists [], e, exps. repeat split; [now apply list_elem_of_In|intros ? []].
  - destruct IH as (pre & ex' & post & -> & Hn & Hpre).
    { exists ex. split; [|assumption]. destruct Hin as [<-|]; [|assumption].
      exfalso. apply He. now apply list_elem_of_In. }
    exists (e :: pre), ex', post. repeat split; [assumption|].
    intros e' [<-|He']; [|now apply Hpre].
    intros Hc. apply He. now apply list_elem_of_In.
Qed.

(** The empty string is never found, even where it is an alias: the outer
    [find] reads the alias returned by the inner one as a boolean. *)
Lemma find_expectation_empty_name (a : Arguments) :
  find_expectation a [] = None.
Proof.
  apply array_find_None. intros ex _.
  destruct (to_boolean _) eqn:E; [|reflexivity].
  apply alias_test_true in E as [_ E]. congruence.
Qed.

(** ** Raw values *)

Lemma flag_defined (f : flag_value) : is_defined (flag_to_value f) = true.
Proof. now destruct f. Qed.

Lemma flag_not_nullish (f : flag_value) (d : value) :
  nullish (flag_to_value f) d = flag_to_value f.
Proof. now destruct f. Qed.

Lemma raw_get_not_null (a : Arguments) (n : jsstring) : raw_get a n <> VNull.
Proof.
  unfold raw_get, inherited. destruct (raw a !! n) as [[]|]; try discriminate.
  destruct (bool_decide _); discriminate.
Qed.

Lemma is_defined_iff (v : value) : is_defined v = true <-> v <> VUndefined.
Proof. destruct v; simpl; split; congruence. Qed.

Lemma is_defined_false (v : value) : is_defined v = false <-> v = VUndefined.
Proof. destruct v; simpl; split; congruence. Qed.

(** A value read from the raw flags is kept by [??]. *)
Lemma raw_get_not_nullish (a : Arguments) (n : jsstring) (d : value) :
  raw_get a n <> VUndefined -> nullish (raw_get a n) d = raw_get a n.
Proof.
  intros H. pose proof (raw_get_not_null a n) as H'.
  destruct (raw_get a n); simpl; congruence.
Qed.

(** The names that are no member of [Object.prototype] read a flag or
    nothing. *)
Lemma raw_get_own (a : Arguments) (n : jsstring) :
  ~ In n object_prototype_members ->
  raw_get a n = match raw a !! n with
                | Some f => flag_to_value f
                | None => VUndefined
                end.
Proof.
  intros H. unfold raw_get, inherited. destruct (raw a !! n); [reflexivity|].
  rewrite bool_decide_eq_false_2; [reflexivity|].
  intros Hin. now apply H, list_elem_of_In.
Qed.

Lemma raw_get_flag (a : Arguments) (n : jsstring) (f : flag_value) :
  raw a !! n = Some f -> raw_get a n = flag_to_value f /\ raw_get a n <> VUndefined.
Proof. intros H. unfold raw_get. rewrite H. now destruct f. Qed.

Lemma getRaw_absent (a : Arguments) (l : list jsstring) :
  (forall n, In n l -> raw_get a n = VUndefined) -> getRaw a l = VUndefined.
Proof.
  induction l as [|n l IH]; simpl; intros H; [reflexivity|].
  rewrite (H n) by auto. simpl. apply IH. auto.
Qed.

Lemma getRaw_first_present (a : Arguments) (pre post : list jsstring)
    (n : jsstring) :
  (forall m, In m pre -> raw_get a m = VUndefined) ->
  raw_get a n <> VUndefined ->
  getRaw a (pre ++ n :: post) = raw_get a n.
Proof.
  intros Hpre Hn. induction pre as [|m pre IH]; simpl.
  - apply is_defined_iff in Hn. now rewrite Hn.
  - rewrite (Hpre m) by (simpl; auto). simpl.
    apply IH. intros k Hk. apply Hpre. simpl. auto.
Qed.

Lemma get_first_present (a : Arguments) (name : jsstring) (ex : Expectation)
    (pre post : list jsstring) (n : jsstring) :
  find_expectation a name = Some ex ->
  names ex = pre ++ n :: post ->
  (forall m, In m pre -> raw_get a m = VUndefined) ->
  raw_get a n <> VUndefined ->
  get a name = convertor ex (raw_get a n).
Proof.
  intros Hfind Hnames Hpre Hn. unfold get. rewrite Hfind. simpl.
  rewrite Hnames, (getRaw_first_present a pre post n Hpre Hn).
  now rewrite raw_get_not_nullish.
Qed.

Lemma get_absent (a : Arguments) (name : jsstring) (ex : Expectation) :
  find_expectation a name = Some ex ->
  (forall n, In n (names ex) -> raw_get a n = VUndefined) ->
  get a name = convertor ex (default ex).
Proof.
  intros Hfind Habs. unfold get. rewrite Hfind. simpl.
  now rewrite (getRaw_absent a (names ex) Habs).
Qed.

Lemma value_eq_undefined_dec (v : value) : {v = VUndefined} + {v <> VUndefined}.
Proof. destruct v; (now left) || (right; discriminate). Defined.

(** Either some alias is the first one that reads a value, or none does. *)
Lemma first_present_or_absent (a : Arguments) (l : list jsstring) :
  (exists pre n post,
      l = pre ++ n :: post /\ (forall m, In m pre -> raw_get a m = VUndefined)
      /\ raw_get a n <> VUndefined) \/
  (forall n, In n l -> raw_get a n = VUndefined).
Proof.
  induction l as [|k l IH]; [right; intros n []|].
  destruct (value_eq_undefined_dec (raw_get a k)) as [Ek|Ek].
  - destruct IH as [(pre & n & post & -> & Hpre & Hn)|Habs].
    + left. exists (k :: pre), n, post. repeat split; auto.
      intros m [<-|Hm]; auto.
    + right. intros n [<-|Hn]; auto.
  - left. exists [], k, l. repeat split; auto. intros m [].
Qed.

(** ** Resolution of a value *)

(** The state of [default] in an expectation declared without one; it is
    what [getHelpMessage] tests with [!== null]. *)
Definition absent : value := VNull.

(** C1, as amended: for a declared expectation and a non-empty name among
    its aliases that no expectation declared before it holds, [get(name)]
    scans the aliases of that expectation in their order and passes to the
    convertor the value read under the first alias that reads one, a stored
    flag or a member the raw flag object inherits; when no alias reads a
    value it passes the declared default, or the absent marker when none was
    declared; in every case the result of [get] is the result of the
    convertor. *)
Theorem get_resolution (a : Arguments) (decls : list ExpectationType)
    (before after : list Expectation) (ex : Expectation) (name : jsstring) :
  expectations a = createExpectations decls ->
  expectations a = before ++ ex :: after ->
  In name (names ex) -> name <> [] ->
  (forall ex', In ex' before -> ~ In name (names ex')) ->
  exists d, In d decls /\ ex = createExpectation d /\
    (forall pre n post,
        names ex = pre ++ n :: post ->
        (forall m, In m pre -> raw_get a m = VUndefined) ->
        raw_get a n <> VUndefined ->
        get a name = convertor ex (raw_get a n)) /\
    ((forall n, In n (names ex) -> raw_get a n = VUndefined) ->
     get a name
     = convertor ex (match ex_default d with VUndefined => absent | v => v end)) /\
    ((exists pre n post,
         names ex = pre ++ n :: post /\
         (forall m, In m pre -> raw_get a m = VUndefined) /\
         raw_get a n <> VUndefined) \/
     (forall n, In n (names ex) -> raw_get a n = VUndefined)) /\
    (forall n f, raw a !! n = Some f -> raw_get a n = flag_to_value f) /\
    (forall n, raw a !! n = None -> ~ In n object_prototype_members ->
               raw_get a n = VUndefined).
Proof.
  intros Hexp Hsplit Hin Hne Hfirst.
  pose proof (find_expectation_first a name before after ex Hsplit Hne Hin Hfirst)
    as Hfind.
  assert (In ex (expectations a)) as Hex by (rewrite Hsplit; apply in_elt).
  rewrite Hexp in Hex. unfold createExpectations in Hex.
  apply in_map_iff in Hex as (d & Hd & Hdin).
  exists d. split; [assumption|]. split; [easy|].
  split; [|split; [|split; [|split]]].
  - intros pre n post. now apply get_first_present.
  - intros Habs. rewrite (get_absent a name ex Hfind Habs). subst ex. simpl.
    now destruct (ex_default d).
  - apply first_present_or_absent.
  - intros n f Hf. now apply raw_get_flag.
  - intros n Hn Hni. now rewrite (raw_get_own a n Hni), Hn.
Qed.

(** C2: for a name that is an alias of no declared expectation, [get] throws,
    and [isArgumentException] is false for what it throws. *)
Theorem get_undeclared_faults (a : Arguments) (name : jsstring) :
  (forall ex, In ex (expectations a) -> ~ In name (names ex)) ->
  exists e, get a name = Throw e /\ isArgumentException e = false.
Proof.
  intros H. unfold get.
  assert (find_expectation a name = None) as ->.
  { apply array_find_None. intros ex Hex.
    now rewrite (alias_test_false name (names ex) (H ex Hex)). }
  eexists. split; reflexivity.
Qed.

(** C5, as amended: the normalization of [default] maps [undefined] and
    [null] to the absent state; every other declared default, [0], [false]
    and the empty string among them, is kept as it is and is not absent, and
    when no alias reads a value from the raw flags [get] returns the
    convertor applied to that default. *)
Theorem default_kept_unless_nullish (d : ExpectationType) :
  (ex_default d = VUndefined \/ ex_default d = VNull ->
   default (createExpectation d) = absent) /\
  (ex_default d <> VUndefined -> ex_default d <> VNull ->
   default (createExpectation d) = ex_default d /\
   default (createExpectation d) <> absent /\
   forall a name,
     find_expectation a name = Some (createExpectation d) ->
     (forall n, In n (names (createExpectation d)) -> raw_get a n = VUndefined) ->
     get a name = convertor (createExpectation d) (ex_default d)) /\
  (forall v, In v [VNum 0; VBool false; VStr []] ->
   nullish v VNull = v /\ v <> absent) /\
  (forall a n, raw a !! n = None -> ~ In n object_prototype_members ->
               raw_get a n = VUndefined).
Proof.
  split; [|split; [|split]].
  - intros [H|H]; simpl; now rewrite H.
  - intros Hu Hn.
    assert (default (createExpectation d) = ex_default d) as Hkeep.
    { simpl. destruct (ex_default d) eqn:E; simpl; congruence. }
    split; [assumption|]. split; [unfold absent; congruence|].
    intros a name Hfind Habs. rewrite <- Hkeep. now apply get_absent.
  - intros v Hv. simpl in Hv. unfold absent.
    destruct Hv as [<-|[<-|[<-|[]]]]; split; (reflexivity || discriminate).
  - intros a n Hn Hni. now rewrite (raw_get_own a n Hni), Hn.
Qed.

Lemma help_not_inherited : inherited (js "help") = VUndefined.
Proof. reflexivity. Qed.

(** C6: [shouldHelp()] is true exactly when the raw flag map holds a truthy
    value under [help]; it is false when [help] is absent, [false], [0] or
    the empty string. *)
Theorem shouldHelp_truthy (a : Arguments) :
  (shouldHelp a = true <->
   exists f, raw a !! js "help" = Some f /\ to_boolean (flag_to_value f) = true) /\
  (raw a !! js "help" = None -> shouldHelp a = false) /\
  (raw a !! js "help" = Some (FBool false) -> shouldHelp a = false) /\
  (raw a !! js "help" = Some (FNum 0) -> shouldHelp a = false) /\
  (raw a !! js "help" = Some (FStr []) -> shouldHelp a = false).
Proof.
  unfold shouldHelp, getRaw, raw_get.
  destruct (raw a !! js "help") as [f|] eqn:E.
  - rewrite flag_defined.
    split; [|repeat split; intros [= ->]; reflexivity].
    split; [intros H; now exists f|].
    now intros (f' & [= <-] & H).
  - rewrite help_not_inherited. simpl.
    split; [|repeat split; (reflexivity || discriminate)].
    split; [discriminate|]. now intros (f & Hf & _).
Qed.

(** C10, as amended: when the first alias of the expectation that reads a
    value from the raw flag object holds a falsy flag ([false], [0], the
    empty string), [get] returns the convertor applied to that raw value,
    not to the declared default. *)
Theorem get_falsy_raw (a : Arguments) (name : jsstring) (ex : Expectation)
    (pre post : list jsstring) (n : jsstring) (f : flag_value) :
  find_expectation a name = Some ex ->
  names ex = pre ++ n :: post ->
  (forall m, In m pre -> raw_get a m = VUndefined) ->
  raw a !! n = Some f ->
  to_boolean (flag_to_value f) = false ->
  get a name = convertor ex (flag_to_value f).
Proof.
  intros Hfind Hnames Hpre Hn _.
  destruct (raw_get_flag a n f Hn) as [E Hdef]. rewrite <- E.
  now apply (get_first_present a name ex pre post n).
Qed.

(** ** Prefixes of a class of code units *)

Lemma span_skip (p : char -> bool) (s : jsstring) : span p s ++ skip p s = s.
Proof.
  induction s as [|c s IH]; simpl; [reflexivity|].
  destruct (p c); simpl; [now rewrite IH|reflexivity].
Qed.

Lemma span_all (p : char -> bool) (s : jsstring) :
  Forall (fun c => p c = true) (span p s).
Proof.
  induction s as [|c s IH]; simpl; [constructor|].
  destruct (p c) eqn:E; constructor; assumption.
Qed.

Lemma span_length_le (p : char -> bool) (s : jsstring) :
  (length (span p s) <= length s)%nat.
Proof.
  induction s as [|c s IH]; simpl; [lia|]. destruct (p c); simpl; lia.
Qed.

Lemma take_span (p : char -> bool) (s : jsstring) :
  take (length (span p s)) s = span p s.
Proof.
  induction s as [|c s IH]; simpl; [reflexivity|].
  destruct (p c); simpl; [now rewrite IH|reflexivity].
Qed.

Lemma drop_span (p : char -> bool) (s : jsstring) :
  drop (length (span p s)) s = skip p s.
Proof.
  induction s as [|c s IH]; simpl; [reflexivity|].
  destruct (p c); simpl; [now rewrite IH|reflexivity].
Qed.

Lemma skip_Forall (P : char -> Prop) (p : char -> bool) (s : jsstring) :
  Forall P s -> Forall P (skip p s).
Proof.
  induction 1 as [|c s Hc Hs IH]; simpl; [constructor|].
  destruct (p c); [assumption|now constructor].
Qed.

Lemma skip_nil_iff (p : char -> bool) (s : jsstring) :
  skip p s = [] <-> Forall (fun c => p c = true) s.
Proof.
  induction s as [|c s IH]; simpl; [split; [constructor|reflexivity]|].
  destruct (p c) eqn:E.
  - rewrite IH. split; [now constructor|now inversion 1].
  - split; [discriminate|]. inversion 1; congruence.
Qed.

(** A string that does not begin with white space. *)
Definition starts_clean (s : jsstring) : Prop :=
  match s with
  | c :: _ => is_ws c = false
  | [] => True
  end.

(** A string that does not end with white space. *)
Definition ends_clean (s : jsstring) : Prop :=
  forall pre c, s = pre ++ [c] -> is_ws c = false.

Lemma skip_starts_clean (s : jsstring) : starts_clean (skip is_ws s).
Proof.
  induction s as [|c s IH]; simpl; [exact I|].
  destruct (is_ws c) eqn:E; [assumption|exact E].
Qed.

Lemma skip_clean_id (s : jsstring) : starts_clean s -> skip is_ws s = s.
Proof. destruct s as [|c s]; simpl; [reflexivity|]. now intros ->. Qed.

Lemma ends_clean_tail (c : char) (s : jsstring) :
  ends_clean (c :: s) -> ends_clean s.
Proof. intros H pre x ->. apply (H (c :: pre) x). reflexivity. Qed.

Lemma ends_clean_skip (p : char -> bool) (s : jsstring) :
  ends_clean s -> ends_clean (skip p s).
Proof.
  intros H pre x E. apply (H (span p s ++ pre) x).
  now rewrite <- app_assoc, <- E, span_skip.
Qed.

Lemma ends_clean_not_blank (s : jsstring) :
  ends_clean s -> s <> [] -> ~ Forall (fun c => is_ws c = true) s.
Proof.
  intros H Hne Hall. destruct (exists_last Hne) as (pre & c & ->).
  apply Forall_app in Hall as [_ Hc]. inversion Hc; subst.
  specialize (H pre c eq_refl). congruence.
Qed.

(** ** [trim] *)

(** A string that [trim] leaves as it is. *)
Definition trimmed (s : jsstring) : Prop := trim s = s.

Lemma trimEnd_rev (s : jsstring) : rev (trimEnd s) = skip is_ws (rev s).
Proof. unfold trimEnd. apply rev_involutive. Qed.

Lemma trimEnd_starts_clean (s : jsstring) :
  starts_clean s -> starts_clean (trimEnd s).
Proof.
  intros H. unfold trimEnd.
  pose proof (span_skip is_ws (rev s)) as E.
  apply (f_equal (@rev char)) in E. rewrite rev_app_distr, rev_involutive in E.
  destruct (rev (skip is_ws (rev s))) as [|c u]; [exact I|].
  rewrite <- E in H. exact H.
Qed.

Lemma trimEnd_ends_clean (s : jsstring) : ends_clean (trimEnd s).
Proof.
  intros pre c E. apply (f_equal (@rev char)) in E.
  rewrite trimEnd_rev, rev_app_distr in E. simpl in E.
  pose proof (skip_starts_clean (rev s)) as H. now rewrite E in H.
Qed.

Lemma trimEnd_idempotent (s : jsstring) : trimEnd (trimEnd s) = trimEnd s.
Proof.
  unfold trimEnd at 1. rewrite trimEnd_rev.
  now rewrite (skip_clean_id _ (skip_starts_clean (rev s))).
Qed.

Lemma trim_starts_clean (s : jsstring) : starts_clean (trim s).
Proof. apply trimEnd_starts_clean, skip_starts_clean. Qed.

Lemma trim_ends_clean (s : jsstring) : ends_clean (trim s).
Proof. apply trimEnd_ends_clean. Qed.

Lemma trim_idempotent (s : jsstring) : trim (trim s) = trim s.
Proof.
  unfold trim at 1. unfold trimStart.
  rewrite (skip_clean_id _ (trim_starts_clean s)).
  apply trimEnd_idempotent.
Qed.

Lemma trim_Forall (P : char -> Prop) (s : jsstring) :
  Forall P s -> Forall P (trim s).
Proof.
  intros H. unfold trim, trimEnd, trimStart.
  apply Forall_rev, skip_Forall, Forall_rev, skip_Forall, H.
Qed.

Lemma trim_no_ws (s : jsstring) :
  Forall (fun c => is_ws c = false) s -> trimmed s.
Proof.
  intros H. unfold trimmed, trim, trimStart, trimEnd.
  assert (forall t, Forall (fun c => is_ws c = false) t -> skip is_ws t = t) as Hid.
  { intros t Ht. apply skip_clean_id. destruct Ht; simpl; auto. }
  rewrite (Hid s H), (Hid (rev s)) by now apply Forall_rev.
  apply rev_involutive.
Qed.

Lemma trim_nil_iff (s : jsstring) :
  trim s = [] <-> Forall (fun c => is_ws c = true) s.
Proof.
  split.
  - intros E. apply skip_nil_iff.
    destruct (skip is_ws s) as [|c u] eqn:Es; [reflexivity|exfalso].
    unfold trim, trimStart in E. rewrite Es in E.
    apply (f_equal (@rev char)) in E. rewrite trimEnd_rev in E. simpl in E.
    apply skip_nil_iff, Forall_app in E as [_ E]. inversion E; subst.
    pose proof (skip_starts_clean s) as Hc. rewrite Es in Hc. simpl in Hc.
    congruence.
  - intros H. apply skip_nil_iff in H. unfold trim, trimStart. now rewrite H.
Qed.

(** ** Splitting a name into aliases *)

(** A code unit at which the separator pattern matches. *)
Definition sepchar (c : char) : bool := is_ws c || (c =? comma).

Lemma match_separator_None (c : char) (r : jsstring) :
  match_separator (c :: r) = None <-> sepchar c = false.
Proof.
  unfold match_separator, sepchar.
  destruct (is_ws c); simpl; [split; discriminate|].
  destruct (c =? comma); split; (reflexivity || discriminate).
Qed.

Lemma match_separator_ws (c : char) (r : jsstring) :
  is_ws c = true ->
  match_separator (c :: r) = Some (length (span is_ws (c :: r))).
Proof. intros H. unfold match_separator. now rewrite H. Qed.

Lemma match_separator_comma (r : jsstring) :
  match_separator (comma :: r) = Some (S (length (span is_ws r))).
Proof. reflexivity. Qed.

Lemma match_separator_Some (s : jsstring) (len : nat) :
  match_separator s = Some len -> (0 < len <= length s)%nat.
Proof.
  destruct s as [|c r]; simpl; [discriminate|].
  destruct (is_ws c) eqn:E.
  - intros [= <-]. pose proof (span_length_le is_ws (c :: r)) as H.
    simpl in *. rewrite E in *. simpl in *. lia.
  - destruct (c =? comma); [|discriminate].
    intros [= <-]. pose proof (span_length_le is_ws r). lia.
Qed.

(** No alias of a string name holds white space or a comma. *)
Lemma split_loop_no_separator (fuel : nat) (tok rest : jsstring) :
  (length rest < fuel)%nat ->
  Forall (fun c => sepchar c = false) tok ->
  Forall (Forall (fun c => sepchar c = false))
    (split_loop fuel match_separator tok rest).
Proof.
  revert tok rest. induction fuel as [|fuel IH]; intros tok rest Hlen Htok; [lia|].
  destruct rest as [|c r]; [simpl; auto|].
  cbn [split_loop].
  destruct (match_separator (c :: r)) as [len|] eqn:E.
  - apply match_separator_Some in E.
    destruct len as [|len]; [lia|]. cbn [Nat.eqb andb].
    constructor; [assumption|].
    apply IH; [|constructor]. rewrite length_drop. simpl in *. lia.
  - apply match_separator_None in E.
    apply IH; [simpl in *; lia|].
    apply Forall_app. auto.
Qed.

Lemma regexp_split_no_separator (s : jsstring) :
  Forall (Forall (fun c => sepchar c = false))
    (regexp_split match_separator s).
Proof.
  destruct s as [|c r]; [simpl; auto|].
  unfold regexp_split. apply split_loop_no_separator; [lia|constructor].
Qed.

(** With no comma in the text, every alias is cut between two runs of white
    space, or at an end of the trimmed text. *)
Lemma split_loop_nonempty (fuel : nat) (tok rest : jsstring) :
  (length rest < fuel)%nat ->
  tok <> [] \/ (rest <> [] /\ starts_clean rest) ->
  ends_clean rest ->
  Forall (fun c => c <> comma) rest ->
  Forall (fun t => t <> []) (split_loop fuel match_separator tok rest).
Proof.
  revert tok rest. induction fuel as [|fuel IH];
    intros tok rest Hlen Hstart Hend Hcomma; [lia|].
  destruct rest as [|c r].
  - simpl. constructor; [|constructor]. destruct Hstart as [H|[H _]]; congruence.
  - cbn [split_loop]. inversion Hcomma as [|? ? Hc Hr]; subst.
    destruct (match_separator (c :: r)) as [len|] eqn:E.
    + pose proof (match_separator_Some _ _ E) as Hpos.
      destruct len as [|len]; [lia|]. cbn [Nat.eqb andb].
      destruct (is_ws c) eqn:Ews.
      * rewrite (match_separator_ws c r Ews) in E.
        assert (S len = length (span is_ws (c :: r))) as Hl by congruence.
        rewrite Hl, drop_span.
        constructor.
        { destruct Hstart as [H|[_ H]]; [assumption|]. simpl in H. congruence. }
        apply IH.
        -- rewrite <- drop_span, length_drop. simpl in *. lia.
        -- right. split; [|apply skip_starts_clean].
           intros Hnil. apply skip_nil_iff in Hnil.
           now apply (ends_clean_not_blank (c :: r) Hend).
        -- now apply ends_clean_skip.
        -- now apply skip_Forall.
      * assert (sepchar c = false) as Hsep.
        { unfold sepchar. rewrite Ews. now apply N.eqb_neq in Hc as ->. }
        apply (match_separator_None c r) in Hsep. congruence.
    + apply IH; [simpl in *; lia| |now apply ends_clean_tail in Hend|assumption].
      left. now destruct tok.
Qed.

Lemma createNames_string_nonempty (s : jsstring) :
  Forall (fun c => c <> comma) s ->
  Exists (fun c => is_ws c = false) s ->
  Forall (fun alias => alias <> []) (createNames (NameString s)).
Proof.
  intros Hcomma Hsome. simpl.
  pose proof (trim_starts_clean s) as Hs.
  pose proof (trim_ends_clean s) as He.
  pose proof (trim_Forall _ s Hcomma) as Hc.
  assert (trim s <> []) as Hne.
  { intros E. apply trim_nil_iff in E. apply Exists_exists in Hsome as (c & Hin & Hc').
    rewrite Forall_forall in E. specialize (E c Hin). congruence. }
  destruct (trim s) as [|c r] eqn:Et; [congruence|].
  unfold regexp_split. apply split_loop_nonempty; auto. lia.
Qed.

Lemma sepchar_not_ws (t : jsstring) :
  Forall (fun c => sepchar c = false) t -> Forall (fun c => is_ws c = false) t.
Proof.
  intros Ht. eapply Forall_impl; [exact Ht|]. intros c H. unfold sepchar in H.
  now apply orb_false_iff in H as [H _].
Qed.

(** A name is non-empty: a string with a code unit, or an array with an
    element. *)
Definition name_nonempty (n : name_type) : Prop :=
  match n with
  | NameString s => s <> []
  | NameArray l => l <> []
  end.

(** *** A string name against the array of its tokens *)

(** A separator that the pattern consumes whole: a run of white space, or a
    comma followed by white space. *)
Definition consumed_separator (sep : jsstring) : Prop :=
  (sep <> [] /\ Forall (fun c => is_ws c = true) sep) \/
  (exists w, sep = comma :: w /\ Forall (fun c => is_ws c = true) w).

(** A token: a non-empty text without white space and without a comma. *)
Definition token (t : jsstring) : Prop :=
  t <> [] /\ Forall (fun c => sepchar c = false) t.

(** The text [t0 sep1 t1 ... sepn tn]. *)
Fixpoint interleave (t0 : jsstring) (rest : list (jsstring * jsstring))
    : jsstring :=
  match rest with
  | [] => t0
  | (sep, t) :: rest' => t0 ++ sep ++ interleave t rest'
  end.

Lemma token_starts_clean (t rest : jsstring) : token t -> starts_clean (t ++ rest).
Proof.
  intros [Hne Hc]. destruct Hc as [|c t Hc _]; [congruence|]. simpl.
  unfold sepchar in Hc. now apply orb_false_iff in Hc as [Hc _].
Qed.

Lemma interleave_starts_clean (t0 : jsstring) (rest : list (jsstring * jsstring)) :
  token t0 -> starts_clean (interleave t0 rest).
Proof.
  intros H. destruct rest as [|[sep t] rest]; simpl.
  - rewrite <- (app_nil_r t0). now apply token_starts_clean.
  - now apply token_starts_clean.
Qed.

Lemma interleave_ends_clean (t0 : jsstring) (rest : list (jsstring * jsstring)) :
  token t0 -> Forall (fun st => token (snd st)) rest ->
  ends_clean (interleave t0 rest).
Proof.
  intros H0 Hrest. revert t0 H0.
  induction Hrest as [|[sep t] rest Ht _ IH]; intros t0 [Hne Hc]; simpl.
  - intros pre c ->. apply Forall_app in Hc as [_ Hc]. inversion Hc; subst.
    unfold sepchar in *. now apply orb_false_iff in H1 as [H1 _].
  - intros pre c E. simpl in Ht. specialize (IH t Ht).
    destruct (exists_last (l := interleave t rest)) as (pre' & c' & E').
    { destruct Ht as [Hne' _]. destruct rest as [|[] ?]; simpl; [assumption|].
      destruct t; [congruence|discriminate]. }
    rewrite E', !app_assoc in E. apply app_inj_tail in E as [_ <-].
    now apply (IH pre' c').
Qed.

Lemma span_prefix (p : char -> bool) (w rest : jsstring) :
  Forall (fun c => p c = true) w ->
  match rest with c :: _ => p c = false | [] => True end ->
  span p (w ++ rest) = w.
Proof.
  intros Hw Hrest. induction Hw as [|c w Hc _ IH]; simpl.
  - destruct rest as [|c r]; simpl; [reflexivity|now rewrite Hrest].
  - now rewrite Hc, IH.
Qed.

Lemma match_consumed_separator (sep rest : jsstring) :
  consumed_separator sep -> starts_clean rest ->
  match_separator (sep ++ rest) = Some (length sep).
Proof.
  intros [[Hne Hws]|(w & -> & Hws)] Hrest.
  - destruct sep as [|c sep]; [congruence|].
    change ((c :: sep) ++ rest) with (c :: (sep ++ rest)).
    rewrite match_separator_ws by now inversion Hws.
    change (c :: (sep ++ rest)) with ((c :: sep) ++ rest).
    now rewrite span_prefix.
  - change ((comma :: w) ++ rest) with (comma :: (w ++ rest)).
    rewrite match_separator_comma. now rewrite span_prefix.
Qed.

Lemma split_loop_token (t : jsstring) (fuel : nat) (tok rest : jsstring) :
  Forall (fun c => sepchar c = false) t ->
  (length t + length rest < fuel)%nat ->
  split_loop fuel match_separator tok (t ++ rest)
  = split_loop (fuel - length t) match_separator (tok ++ t) rest.
Proof.
  intros Ht. revert fuel tok.
  induction Ht as [|c t Hc _ IH]; intros fuel tok Hlen; simpl.
  - now rewrite Nat.sub_0_r, app_nil_r.
  - destruct fuel as [|fuel]; [simpl in Hlen; lia|].
    cbn [split_loop app].
    apply (match_separator_None c (t ++ rest)) in Hc. rewrite Hc.
    rewrite IH by (simpl in Hlen; lia).
    now rewrite <- app_assoc.
Qed.

Lemma split_loop_interleave (rest : list (jsstring * jsstring)) :
  Forall (fun st => consumed_separator (fst st) /\ token (snd st)) rest ->
  forall (fuel : nat) (tok t0 : jsstring),
    Forall (fun c => sepchar c = false) t0 ->
    (length (interleave t0 rest) < fuel)%nat ->
    split_loop fuel match_separator tok (interleave t0 rest)
    = (tok ++ t0) :: List.map snd rest.
Proof.
  induction 1 as [|[sep t] rest [Hsep Ht] _ IH]; intros fuel tok t0 H0 Hlen;
    simpl in *.
  - rewrite <- (app_nil_r t0) at 1. rewrite split_loop_token; auto.
    + destruct (fuel - length t0)%nat eqn:E; [lia|reflexivity].
    + simpl. lia.
  - rewrite !length_app in Hlen.
    rewrite split_loop_token by (auto; rewrite length_app; lia).
    destruct (fuel - length t0)%nat as [|fuel'] eqn:E; [lia|].
    assert (sep <> []) as Hne.
    { destruct Hsep as [[? _]|(w & -> & _)]; [assumption|discriminate]. }
    destruct sep as [|c sep'] eqn:Es; [congruence|]. rewrite <- Es in *.
    assert (split_loop (S fuel') match_separator (tok ++ t0)
              (sep ++ interleave t rest)
            = (tok ++ t0)
                :: split_loop fuel' match_separator []
                     (drop (length sep) (sep ++ interleave t rest))) as ->.
    { rewrite Es. cbn [split_loop app]. rewrite <- Es.
      change (c :: (sep' ++ interleave t rest))
        with ((c :: sep') ++ interleave t rest).
      rewrite <- Es.
      rewrite match_consumed_separator by
        (auto using interleave_starts_clean).
      rewrite Es. reflexivity. }
    rewrite drop_app_length.
    rewrite IH; [reflexivity|apply Ht|rewrite Es in Hlen; simpl in Hlen; lia].
Qed.

(** With separators that the pattern consumes whole, a string name yields
    the aliases that the array of its tokens yields. *)
Lemma createNames_string_as_array (t0 : jsstring)
    (rest : list (jsstring * jsstring)) :
  token t0 ->
  Forall (fun st => consumed_separator (fst st) /\ token (snd st)) rest ->
  createNames (NameString (interleave t0 rest))
  = createNames (NameArray (t0 :: List.map snd rest))
  /\ createNames (NameString (interleave t0 rest)) = t0 :: List.map snd rest.
Proof.
  intros H0 Hrest.
  assert (createNames (NameArray (t0 :: List.map snd rest))
          = t0 :: List.map snd rest) as Harr.
  { simpl. f_equal.
    - apply trim_no_ws, sepchar_not_ws, H0.
    - rewrite <- (map_id (List.map snd rest)) at 2. apply map_ext_in.
      intros t Hin. apply in_map_iff in Hin as ([sep t'] & <- & Hin).
      rewrite Forall_forall in Hrest.
      apply list_elem_of_In, Hrest in Hin as [_ [_ Ht]].
      now apply trim_no_ws, sepchar_not_ws. }
  enough (createNames (NameString (interleave t0 rest)) = t0 :: List.map snd rest)
    as Hs by (rewrite Harr; auto).
  assert (trim (interleave t0 rest) = interleave t0 rest) as Htrim.
  { unfold trim, trimStart.
    rewrite skip_clean_id by now apply interleave_starts_clean.
    unfold trimEnd. rewrite skip_clean_id; [apply rev_involutive|].
    assert (ends_clean (interleave t0 rest)) as He.
    { apply interleave_ends_clean; [assumption|].
      eapply Forall_impl; [exact Hrest|]. now intros st [_ Ht]. }
    destruct (rev (interleave t0 rest)) as [|c u] eqn:Er; [exact I|].
    apply (He (rev u) c). apply (f_equal (@rev char)) in Er.
    now rewrite rev_involutive in Er. }
  simpl. rewrite Htrim.
  destruct (interleave t0 rest) as [|c r] eqn:Ei.
  - destruct H0 as [Hne _]. destruct rest as [|[] ?]; simpl in Ei;
      [congruence|destruct t0; [congruence|discriminate]].
  - unfold regexp_split. rewrite <- Ei.
    rewrite split_loop_interleave; [reflexivity|assumption|apply H0|lia].
Qed.

(** C4, as amended: every alias in [names] is trimmed, and an alias cut from
    a string name holds no white space and no comma; the aliases of a string
    name are all non-empty when the trimmed name is made of non-empty tokens
    with, between them, a run of white space or a comma followed by optional
    white space, as in ["port,p"], ["port, p"] and ["port p"] (they are then
    those tokens), and when the name holds no comma and is not blank; the
    alias of an array element is non-empty exactly when that element is not
    blank. *)
Theorem names_trimmed (n : name_type) :
  Forall trimmed (createNames n) /\
  (forall s, n = NameString s ->
     Forall (Forall (fun c => is_ws c = false /\ c <> comma)) (createNames n) /\
     (forall t0 rest,
         trim s = interleave t0 rest -> token t0 ->
         Forall (fun st => consumed_separator (fst st) /\ token (snd st)) rest ->
         createNames n = t0 :: List.map snd rest /\
         Forall (fun alias => alias <> []) (createNames n)) /\
     (Forall (fun c => c <> comma) s -> Exists (fun c => is_ws c = false) s ->
      Forall (fun alias => alias <> []) (createNames n))) /\
  (forall l, n = NameArray l ->
     createNames n = List.map trim l /\
     forall m, trim m <> [] <-> Exists (fun c => is_ws c = false) m).
Proof.
  split; [|split].
  - destruct n as [s|l]; simpl.
    + eapply Forall_impl; [apply regexp_split_no_separator|].
      intros t Ht. now apply trim_no_ws, sepchar_not_ws.
    + apply Forall_forall. intros t Ht.
      apply list_elem_of_In, in_map_iff in Ht as (m & <- & _). apply trim_idempotent.
  - intros s ->. split; [|split].
    + eapply Forall_impl; [apply regexp_split_no_separator|].
      intros t Ht. eapply Forall_impl; [exact Ht|]. intros c H. unfold sepchar in H.
      apply orb_false_iff in H as [Hw Hc]. split; [assumption|]. now apply N.eqb_neq.
    + intros t0 rest Htrim H0 Hrest.
      assert (createNames (NameString s) = t0 :: List.map snd rest) as E.
      { destruct (createNames_string_as_array t0 rest H0 Hrest) as [_ E].
        simpl in *. now rewrite <- Htrim, trim_idempotent in E. }
      split; [exact E|]. rewrite E. constructor; [apply H0|].
      apply Forall_forall. intros t Ht.
      apply list_elem_of_In, in_map_iff in Ht as ([sep t'] & <- & Hin).
      rewrite Forall_forall in Hrest.
      now apply list_elem_of_In, Hrest in Hin as [_ [Hne _]].
    + apply createNames_string_nonempty.
  - intros l ->. split; [reflexivity|].
    intros m. rewrite trim_nil_iff. split.
    + intros H. apply not_Forall_Exists in H; [|intros c; apply _].
      eapply Exists_impl; [exact H|]. intros c Hc. simpl in Hc.
      now destruct (is_ws c).
    + intros H Hall. apply Exists_exists in H as (c & Hin & Hc).
      rewrite Forall_forall in Hall. specialize (Hall c Hin). congruence.
Qed.

(** C3: a comma that follows white space is not consumed with it: the white
    space is one separator and the comma the next, with an empty alias
    between them, where the array of the same tokens has none. *)
Theorem createNames_space_before_comma :
  createNames (NameString (js "port ,p")) = [js "port"; []; js "p"] /\
  createNames (NameArray [js "port"; js "p"]) = [js "port"; js "p"] /\
  createNames (NameString (js "port, p")) = [js "port"; js "p"] /\
  createNames (NameString (js "port p")) = [js "port"; js "p"] /\
  createNames (NameString (js "port,p")) = [js "port"; js "p"].
Proof. repeat split; vm_compute; reflexivity. Qed.

(** ** The version *)

Definition starts_with_digit (s : jsstring) : bool :=
  match s with
  | d :: _ => is_digit d
  | [] => false
  end.

(** What [setVersion] is described to do, on its own: the text without
    every [v] that stands directly before a digit, that is, before a dotted
    run of numbers. *)
Fixpoint remove_v_before_digit (s : jsstring) : jsstring :=
  match s with
  | c :: r =>
      if (c =? letter_v) && starts_with_digit r
      then remove_v_before_digit r
      else c :: remove_v_before_digit r
  | [] => []
  end.

Definition digit_or_dot (c : char) : bool := is_digit c || (c =? dot).

Lemma digit_or_dot_not_v (c : char) : digit_or_dot c = true -> c <> letter_v.
Proof.
  unfold digit_or_dot, is_digit, dot, letter_v. intros H ->. discriminate H.
Qed.

Lemma span_length_digit (r : jsstring) :
  length (span is_digit r) = O <-> starts_with_digit r = false.
Proof.
  destruct r as [|d r]; simpl; [easy|]. destruct (is_digit d); simpl; easy.
Qed.

Lemma digits_are_digit_or_dot (s : jsstring) :
  Forall (fun c => is_digit c = true) s ->
  Forall (fun c => digit_or_dot c = true) s.
Proof.
  intros H. eapply Forall_impl; [exact H|]. intros c Hc.
  unfold digit_or_dot. now rewrite Hc.
Qed.

(** The text of [n] digits and what [(\.[0-9]+)*] matches after them. *)
Lemma take_digits_then (r : jsstring) (n k : nat) :
  length (span is_digit r) = n ->
  take (n + k) r = span is_digit r ++ take k (drop n r).
Proof.
  intros <-. rewrite drop_span.
  transitivity (take (length (span is_digit r) + k)
                  (span is_digit r ++ skip is_digit r)).
  - now rewrite span_skip.
  - apply take_app_add.
Qed.

Lemma match_dotted_chars (fuel : nat) (s : jsstring) :
  Forall (fun c => digit_or_dot c = true) (take (match_dotted fuel s) s).
Proof.
  revert s. induction fuel as [|fuel IH]; intros s; [simpl; constructor|].
  destruct s as [|c r]; [constructor|]. cbn [match_dotted].
  destruct (c =? dot) eqn:Ec; [|constructor].
  destruct (length (span is_digit r)) as [|n] eqn:En; [constructor|].
  change (S (S n) + match_dotted fuel (drop (S n) r))%nat
    with (S (S n + match_dotted fuel (drop (S n) r))).
  cbn [take firstn]. constructor; [unfold digit_or_dot; now rewrite Ec, orb_true_r|].
  rewrite (take_digits_then r (S n) _ En). apply Forall_app. split.
  - apply digits_are_digit_or_dot, span_all.
  - apply IH.
Qed.

Lemma match_version_Some (c : char) (r : jsstring) (n : nat) :
  c = letter_v -> length (span is_digit r) = S n ->
  exists len,
    match_version (c :: r) = Some (S (S len), take (S len) r) /\
    Forall (fun c => digit_or_dot c = true) (take (S len) r).
Proof.
  intros -> En. unfold match_version. rewrite N.eqb_refl, En.
  exists (n + match_dotted (length r) (drop (S n) r))%nat. split; [reflexivity|].
  change (S (n + match_dotted (length r) (drop (S n) r)))
    with (S n + match_dotted (length r) (drop (S n) r))%nat.
  rewrite (take_digits_then r (S n) _ En). apply Forall_app. split.
  - apply digits_are_digit_or_dot, span_all.
  - apply match_dotted_chars.
Qed.

Lemma match_version_None (c : char) (r : jsstring) :
  (c =? letter_v) && starts_with_digit r = false ->
  match_version (c :: r) = None.
Proof.
  unfold match_version. destruct (c =? letter_v); simpl; [|reflexivity].
  intros H. apply span_length_digit in H. now rewrite H.
Qed.

Lemma remove_v_app (p q : jsstring) :
  Forall (fun c => c <> letter_v) p ->
  remove_v_before_digit (p ++ q) = p ++ remove_v_before_digit q.
Proof.
  induction 1 as [|c p Hc _ IH]; simpl; [reflexivity|].
  apply N.eqb_neq in Hc. rewrite Hc. simpl. now rewrite IH.
Qed.

Lemma not_v_of_digit_or_dot (p : jsstring) :
  Forall (fun c => digit_or_dot c = true) p -> Forall (fun c => c <> letter_v) p.
Proof.
  intros H. eapply Forall_impl; [exact H|]. apply digit_or_dot_not_v.
Qed.

Lemma replace_version (fuel : nat) (s : jsstring) :
  (length s < fuel)%nat ->
  replace_loop fuel match_version (fun p1 => p1) s = remove_v_before_digit s.
Proof.
  revert s. induction fuel as [|fuel IH]; intros s Hlen; [lia|].
  destruct s as [|c r]; [reflexivity|].
  cbn [replace_loop remove_v_before_digit].
  destruct ((c =? letter_v) && starts_with_digit r) eqn:E.
  - apply andb_true_iff in E as [Ec Ed]. apply N.eqb_eq in Ec.
    destruct (length (span is_digit r)) as [|n] eqn:En.
    { apply span_length_digit in En. congruence. }
    destruct (match_version_Some c r n Ec En) as (len & -> & Hchars).
    cbn [drop skipn].
    rewrite IH by (rewrite length_drop; simpl in Hlen; lia).
    rewrite <- (take_drop (S len) r) at 3.
    now rewrite remove_v_app by now apply not_v_of_digit_or_dot.
  - rewrite (match_version_None c r E).
    now rewrite IH by (simpl in Hlen; lia).
Qed.

(** C7, as amended: [setVersion] stores its input without the [v] that stands
    directly before any dotted run of numbers and changes nothing else:
    before such a run that follows text without a [v], the [v] goes and the
    text and the run stay; [setVersion("v1.2.3")] stores ["1.2.3"], and
    [setVersion("release-2.0")], in which no [v] stands before the run, stores
    ["release-2.0"] unchanged. *)
Theorem setVersion_strips_v (a : Arguments) (s : jsstring) :
  version (setVersion a s) = Some (remove_v_before_digit s) /\
  (forall pre run post,
      s = pre ++ letter_v :: run ++ post ->
      Forall (fun c => c <> letter_v) pre ->
      starts_with_digit run = true ->
      Forall (fun c => digit_or_dot c = true) run ->
      version (setVersion a s) = Some (pre ++ run ++ remove_v_before_digit post)) /\
  version (setVersion a (js "v1.2.3")) = Some (js "1.2.3") /\
  version (setVersion a (js "release-2.0")) = Some (js "release-2.0").
Proof.
  assert (forall t, version (setVersion a t) = Some (remove_v_before_digit t)) as H.
  { intros t. simpl. unfold regexp_replace. now rewrite replace_version by lia. }
  split; [apply H|]. split; [|split; rewrite H; reflexivity].
  intros pre run post -> Hpre Hd Hrun. rewrite H. f_equal.
  rewrite remove_v_app by assumption. f_equal.
  cbn [remove_v_before_digit]. rewrite N.eqb_refl.
  replace (starts_with_digit (run ++ post)) with true
    by (destruct run; [discriminate|exact (eq_sym Hd)]).
  cbn [andb]. now rewrite remove_v_app by now apply not_v_of_digit_or_dot.
Qed.

(** ** The help message *)

Section HelpProperties.

Variables bold italic gray : jsstring -> jsstring.
Variable inspect : value -> jsstring.

Local Abbreviation lines := (doc_lines bold gray inspect).
Local Abbreviation block := (doc bold gray inspect).
Local Abbreviation blocks := (docs bold gray inspect).
Local Abbreviation help := (getHelpMessage bold italic gray inspect).
Local Abbreviation call_on := (perform bold italic gray inspect).
Local Abbreviation calls_on := (perform_all bold italic gray inspect).

(** The first line of the block of an expectation. *)
Definition header (ex : Expectation) : jsstring :=
  js "  " ++ join (js ", ") (List.map (fun n => js "--" ++ bold n) (names ex)).

Lemma join_three (sep x : jsstring) : join sep [[]; x; []] = sep ++ x ++ sep.
Proof. simpl. now rewrite app_nil_r. Qed.

(** C8: the block of an expectation declared without a default has no
    default-value line, the block of one declared without a description
    has no description line, and a session without description and
    version adds nothing before the blocks. *)
Theorem help_omits_absent_parts (a : Arguments) (d : ExpectationType) :
  (ex_default d = VUndefined ->
   lines (createExpectation d)
   = header (createExpectation d)
       :: match description (createExpectation d) with
          | Some des =>
              if to_boolean (VStr des)
              then List.map (fun l => indent ++ gray l) (split_on newline des)
              else []
          | None => []
          end) /\
  (ex_description d = None ->
   lines (createExpectation d)
   = header (createExpectation d)
       :: match default (createExpectation d) with
          | VNull => []
          | v => [indent ++ gray default_label ++ js " " ++ inspect v]
          end) /\
  (ex_default d = VUndefined -> ex_description d = None ->
   lines (createExpectation d) = [header (createExpectation d)] /\
   block (createExpectation d)
   = [newline] ++ header (createExpectation d) ++ [newline]) /\
  (desciprion a = None -> version a = None -> help a = blocks a).
Proof.
  split; [|split; [|split]].
  - intros Hd. unfold doc_lines, header. simpl default.
    rewrite Hd. simpl nullish.
    destruct (description (createExpectation d)) as [des|]; [|reflexivity].
    destruct (to_boolean (VStr des)); reflexivity.
  - intros Hd. unfold doc_lines, header. simpl description.
    rewrite Hd. simpl createDescription.
    destruct (default (createExpectation d)); reflexivity.
  - intros Hd Hs.
    assert (lines (createExpectation d) = [header (createExpectation d)]) as H.
    { unfold doc_lines, header. simpl default. simpl description.
      now rewrite Hd, Hs. }
    split; [exact H|]. unfold doc. rewrite H. apply join_three.
  - intros Hd Hv. unfold getHelpMessage, metadata_lines.
    rewrite Hd, Hv. generalize (blocks a). intros [|c r]; reflexivity.
Qed.





End HelpProperties.

(** * Instances *)

(** [{ name: "port,p", default: 3000 }] *)
Definition port_decl : ExpectationType :=
  {| ex_name := NameString (js "port,p");
     ex_default := VNum 3000;
     ex_description := None;
     ex_convertor := None |}.

(** The flags of [-p 8080], kept as a string. *)
Definition port_flags : gmap jsstring flag_value :=
  {[ js "p" := FStr (js "8080") ]}.

(** The flags of [--port=abc -p 0]. *)
Definition both_flags : gmap jsstring flag_value :=
  {[ js "port" := FStr (js "abc"); js "p" := FNum 0 ]}.

(** [{ name: ["p", "pid"], default: 1 }], declared after [port_decl]. *)
Definition pid_decl : ExpectationType :=
  {| ex_name := NameArray [js "p"; js "pid"];
     ex_default := VNum 1;
     ex_description := None;
     ex_convertor := None |}.

(** [{ name: "x", default: null }] *)
Definition null_decl : ExpectationType :=
  {| ex_name := NameString (js "x");
     ex_default := VNull;
     ex_description := None;
     ex_convertor := None |}.

(** [{ name: "count", default: 0 }] *)
Definition zero_decl : ExpectationType :=
  {| ex_name := NameString (js "count");
     ex_default := VNum 0;
     ex_description := None;
     ex_convertor := None |}.

Lemma get_resolution_witness :
  get (constructor port_flags [port_decl]) (js "port")
  = Return (VStr (js "8080")).
Proof.
  destruct (get_resolution (constructor port_flags [port_decl]) [port_decl]
              [] [] (createExpectation port_decl) (js "port") eq_refl eq_refl)
    as (d & _ & _ & Hraw & _).
  - vm_compute. auto.
  - discriminate.
  - intros ex' [].
  - rewrite (Hraw [js "port"] (js "p") []); [reflexivity|reflexivity| |].
    + intros m [<-|[]]. reflexivity.
    + vm_compute. discriminate.
Defined.

Lemma get_undeclared_faults_witness :
  exists e, get (constructor port_flags [port_decl]) (js "host") = Throw e
            /\ isArgumentException e = false.
Proof.
  apply get_undeclared_faults.
  intros ex [<-|[]] H. vm_compute in H.
  destruct H as [H|[H|[]]]; discriminate H.
Defined.

Lemma get_falsy_raw_witness :
  get (constructor {[ js "p" := FNum 0 ]} [port_decl]) (js "port")
  = Return (VNum 0).
Proof.
  apply (get_falsy_raw (constructor {[ js "p" := FNum 0 ]} [port_decl])
           (js "port") (createExpectation port_decl)
           [js "port"] [] (js "p") (FNum 0)); try reflexivity.
  intros m [<-|[]]. reflexivity.
Defined.






(** Three ways in which an alias of a declared expectation does not resolve
    as its own aliases would have it: the empty alias is never found; an
    alias that an earlier expectation holds resolves with the earlier one,
    whatever the flags under the other aliases of the later; and an alias
    named like a member of [Object.prototype] reads that member where no
    flag is stored, so the default is not used. *)
Lemma get_resolution_exceptions :
  (In [] (names (createExpectation
                   {| ex_name := NameString (js "a,,b"); ex_default := VNum 1;
                      ex_description := None; ex_convertor := None |})) /\
   get (constructor ∅
          [{| ex_name := NameString (js "a,,b"); ex_default := VNum 1;
              ex_description := None; ex_convertor := None |}]) []
   = Throw (mk_error BuiltinError (not_found_message []))) /\
  (In (js "p") (names (createExpectation pid_decl)) /\
   get (constructor {[ js "pid" := FNum 7 ]} [port_decl; pid_decl]) (js "p")
   = Return (VNum 3000)) /\
  (get (constructor ∅
          [{| ex_name := NameString (js "toString,s"); ex_default := VNum 5;
              ex_description := None; ex_convertor := None |}]) (js "s")
   = Return (VFun (js "toString"))).
Proof.
  split; [split; [vm_compute; auto|reflexivity]|].
  split; [split; [vm_compute; auto|vm_compute; reflexivity]|].
  vm_compute. reflexivity.
Qed.

Lemma names_trimmed_witness :
  createNames (NameString (js " port, p ")) = [js "port"; js "p"] /\
  Forall (fun alias => alias <> []) (createNames (NameString (js " port, p "))).
Proof.
  destruct (names_trimmed (NameString (js " port, p "))) as (_ & Hs & _).
  destruct (Hs (js " port, p ") eq_refl) as (_ & Htok & _).
  apply (Htok (js "port") [(js ", ", js "p")]).
  - reflexivity.
  - split; [discriminate|repeat constructor].
  - constructor; [|constructor]. split.
    + right. exists (js " "). split; [reflexivity|repeat constructor].
    + split; [discriminate|repeat constructor].
Defined.

(** An alias between two commas is empty. *)
Lemma names_empty_alias :
  name_nonempty (NameString (js "a,,b")) /\
  ~ Forall (fun alias => trimmed alias /\ alias <> [])
      (createNames (NameString (js "a,,b"))).
Proof.
  split; [discriminate|].
  assert (createNames (NameString (js "a,,b")) = [js "a"; []; js "b"]) as ->
    by (vm_compute; reflexivity).
  intros H. inversion H as [|? ? _ H2]. inversion H2 as [|? ? [_ Hne] _].
  now apply Hne.
Qed.

(** A default declared as [null] is in the absent state, the state of a
    declaration without a default. *)
Lemma null_default_is_absent :
  ex_default null_decl <> VUndefined /\
  default (createExpectation null_decl) = absent /\
  get (constructor ∅ [null_decl]) (js "x") = Return absent.
Proof. repeat split. discriminate. Qed.

(** Nothing is stripped from ["release-2.0"]: its run of numbers stays. *)
Lemma setVersion_release_unchanged :
  version (setVersion (constructor ∅ []) (js "release-2.0"))
  = Some (js "release-2.0") /\
  version (setVersion (constructor ∅ []) (js "release-2.0"))
  <> Some (js "release-").
Proof. split; [vm_compute; reflexivity|vm_compute; discriminate]. Qed.

(** A falsy value under the second alias gives way to the value under the
    first. *)
Lemma get_later_falsy_alias :
  In (js "p") (names (createExpectation port_decl)) /\
  both_flags !! js "p" = Some (FNum 0) /\
  to_boolean (flag_to_value (FNum 0)) = false /\
  get (constructor both_flags [port_decl]) (js "port") = Return (VStr (js "abc")) /\
  get (constructor both_flags [port_decl]) (js "port") <> Return (VNum 0).
Proof.
  split; [vm_compute; auto|]. split; [reflexivity|]. split; [reflexivity|].
  split; [vm_compute; reflexivity|vm_compute; discriminate].
Qed.

(** * Further properties *)

(** ** Which expectation a name resolves to *)

(** X1: [get] throws its not-found [Error], with the name between quotes in
    the message, when the name is the empty string or is an alias of no
    expectation; for every other name it returns what the convertor of an
    expectation holding that name returns. *)
Theorem get_not_found_cases (a : Arguments) (name : jsstring) :
  (name = [] \/ (forall ex, In ex (expectations a) -> ~ In name (names ex)) ->
   get a name
   = Throw (mk_error BuiltinError
              (js "Argument " ++ [0x22] ++ name ++ [0x22] ++ js " is not found."))) /\
  (name <> [] -> (exists ex, In ex (expectations a) /\ In name (names ex)) ->
   exists ex v, In ex (expectations a) /\ In name (names ex)
                /\ get a name = convertor ex v).
Proof.
  split.
  - intros H. unfold get.
    assert (find_expectation a name = None) as ->; [|reflexivity].
    destruct H as [->|H]; [apply find_expectation_empty_name|].
    apply array_find_None. intros ex Hex.
    now rewrite (alias_test_false name (names ex) (H ex Hex)).
  - intros Hne Hsome.
    destruct (first_holder name (expectations a) Hsome)
      as (pre & ex & post & Hexp & Hin & Hpre).
    exists ex. eexists. split; [rewrite Hexp; apply in_elt|]. split; [assumption|].
    unfold get. now rewrite (find_expectation_first a name pre post ex Hexp Hne Hin Hpre).
Qed.

(** X2: when several expectations hold a non-empty name, [get] resolves it
    with the first of them in declaration order: with its aliases, its
    default and its convertor. *)
Theorem get_first_declared (a : Arguments) (name : jsstring)
    (pre post : list Expectation) (ex : Expectation) :
  expectations a = pre ++ ex :: post ->
  name <> [] -> In name (names ex) ->
  (forall ex', In ex' pre -> ~ In name (names ex')) ->
  get a name = convertor ex (nullish (getRaw a (names ex)) (default ex)).
Proof.
  intros Hexp Hne Hin Hpre. unfold get.
  now rewrite (find_expectation_first a name pre post ex Hexp Hne Hin Hpre).
Qed.

(** X3: two aliases of an expectation, neither of them held by an earlier
    expectation, are interchangeable in [get]. *)
Theorem get_alias_equivalence (a : Arguments) (n1 n2 : jsstring)
    (pre post : list Expectation) (ex : Expectation) :
  expectations a = pre ++ ex :: post ->
  n1 <> [] -> n2 <> [] -> In n1 (names ex) -> In n2 (names ex) ->
  (forall ex', In ex' pre -> ~ In n1 (names ex') /\ ~ In n2 (names ex')) ->
  get a n1 = get a n2.
Proof.
  intros Hexp H1 H2 Hin1 Hin2 Hpre. unfold get.
  rewrite (find_expectation_first a n1 pre post ex Hexp H1 Hin1)
    by (intros ex' Hex'; apply (Hpre ex' Hex')).
  rewrite (find_expectation_first a n2 pre post ex Hexp H2 Hin2)
    by (intros ex' Hex'; apply (Hpre ex' Hex')).
  reflexivity.
Qed.

(** ** The scan of the raw flags *)

Lemma inherited_cases (n : jsstring) :
  (In n object_prototype_members /\ inherited n = VFun n) \/
  (~ In n object_prototype_members /\ inherited n = VUndefined).
Proof.
  unfold inherited. destruct (bool_decide (n ∈ object_prototype_members)) eqn:E.
  - left. apply bool_decide_eq_true in E. split; [now apply list_elem_of_In|reflexivity].
  - right. apply bool_decide_eq_false in E. split; [|reflexivity].
    intros H. now apply E, list_elem_of_In.
Qed.

Lemma raw_get_undefined_iff (a : Arguments) (n : jsstring) :
  raw_get a n = VUndefined <->
  raw a !! n = None /\ ~ In n object_prototype_members.
Proof.
  unfold raw_get. destruct (raw a !! n) as [f|].
  - split; [now destruct f|now intros [? _]].
  - destruct (inherited_cases n) as [[Hin ->]|[Hni ->]]; split; auto.
    + discriminate.
    + now intros [_ H].
Qed.

Lemma getRaw_app (a : Arguments) (l1 l2 : list jsstring) :
  getRaw a (l1 ++ l2)
  = if is_defined (getRaw a l1) then getRaw a l1 else getRaw a l2.
Proof.
  induction l1 as [|n l1 IH]; simpl; [reflexivity|].
  destruct (is_defined (raw_get a n)) eqn:E; [now rewrite E|assumption].
Qed.

Lemma getRaw_undefined_iff (a : Arguments) (l : list jsstring) :
  getRaw a l = VUndefined <-> forall n, In n l -> raw_get a n = VUndefined.
Proof.
  split; [|apply getRaw_absent].
  induction l as [|n l IH]; simpl; intros H m Hm; [destruct Hm|].
  destruct (is_defined (raw_get a n)) eqn:E.
  - rewrite H in E. discriminate.
  - apply is_defined_false in E. destruct Hm as [<-|Hm]; [assumption|now apply IH].
Qed.

Lemma getRaw_not_null (a : Arguments) (l : list jsstring) : getRaw a l <> VNull.
Proof.
  induction l as [|n l IH]; simpl; [discriminate|].
  destruct (is_defined (raw_get a n)); [apply raw_get_not_null|assumption].
Qed.

(** X4: [getRaw] returns [undefined] exactly when none of the given names is
    a stored flag or the name of a member the raw flag object inherits from
    [Object.prototype]; it never returns [null], and over two lists of names
    in a row it returns what it finds in the first list and scans the second
    only when the first gave [undefined]. *)
Theorem getRaw_scan (a : Arguments) (l1 l2 : list jsstring) :
  (getRaw a l1 = VUndefined <->
   forall n, In n l1 -> raw a !! n = None /\ ~ In n object_prototype_members) /\
  getRaw a l1 <> VNull /\
  getRaw a [] = VUndefined /\
  getRaw a (l1 ++ l2)
  = if is_defined (getRaw a l1) then getRaw a l1 else getRaw a l2.
Proof.
  split; [|split; [apply getRaw_not_null|split; [reflexivity|apply getRaw_app]]].
  rewrite getRaw_undefined_iff. split; intros H n Hn.
  - now apply raw_get_undefined_iff, H.
  - now apply raw_get_undefined_iff, H.
Qed.

(** ** What the convertor receives *)

Lemma selected_not_undefined (a : Arguments) (d : ExpectationType) :
  nullish (getRaw a (names (createExpectation d)))
    (default (createExpectation d)) <> VUndefined.
Proof.
  destruct (getRaw a (names (createExpectation d))) eqn:E; simpl;
    try discriminate; destruct (ex_default d); discriminate.
Qed.

(** X5: the convertor of a declared expectation is never called with
    [undefined]: when no alias is a stored flag or the name of an inherited
    member, and no default or a [null] default was declared, it receives
    [null]. *)
Theorem get_never_passes_undefined (a : Arguments)
    (decls : list ExpectationType) (name : jsstring) (ex : Expectation) :
  expectations a = createExpectations decls ->
  find_expectation a name = Some ex ->
  exists v, v <> VUndefined /\ get a name = convertor ex v /\
    ((forall n, In n (names ex) ->
                raw a !! n = None /\ ~ In n object_prototype_members) ->
     (exists d, In d decls /\ ex = createExpectation d /\
                (ex_default d = VUndefined \/ ex_default d = VNull)) ->
     v = VNull).
Proof.
  intros Hexp Hfind.
  destruct (find_expectation_Some a name ex Hfind) as (Hin & _ & _).
  rewrite Hexp in Hin. unfold createExpectations in Hin.
  apply in_map_iff in Hin as (d & <- & Hd).
  exists (nullish (getRaw a (names (createExpectation d)))
            (default (createExpectation d))).
  split; [apply selected_not_undefined|]. split.
  - unfold get. now rewrite Hfind.
  - intros Habs (d' & _ & Hd' & Hnull).
    rewrite (getRaw_absent a _) by
      (intros n Hn; now apply raw_get_undefined_iff, Habs).
    simpl.
    assert (default (createExpectation d) = default (createExpectation d')) as E
      by now rewrite Hd'.
    simpl in E. rewrite E. destruct Hnull as [->| ->]; reflexivity.
Qed.

(** X6: for an expectation declared without a convertor, [get] does not
    throw: it returns, as it is, the flag stored under one of the aliases,
    or the [Object.prototype] member named by an alias under which no flag
    is stored, or else, when no alias is either, the normalized default. *)
Theorem get_without_convertor (a : Arguments) (d : ExpectationType)
    (name : jsstring) :
  ex_convertor d = None ->
  find_expectation a name = Some (createExpectation d) ->
  exists v, get a name = Return v /\ v <> VUndefined /\
    ((exists n f, In n (names (createExpectation d)) /\ raw a !! n = Some f
                  /\ v = flag_to_value f) \/
     (exists n, In n (names (createExpectation d)) /\ raw a !! n = None
                /\ In n object_prototype_members /\ v = VFun n) \/
     ((forall n, In n (names (createExpectation d)) ->
                 raw a !! n = None /\ ~ In n object_prototype_members) /\
      v = nullish (ex_default d) VNull)).
Proof.
  intros Hc Hfind.
  exists (nullish (getRaw a (names (createExpectation d)))
            (default (createExpectation d))).
  split; [|split; [apply selected_not_undefined|]].
  - unfold get. rewrite Hfind. cbn [convertor createExpectation]. now rewrite Hc.
  - destruct (first_present_or_absent a (names (createExpectation d)))
      as [(pre & n & post & E & Hpre & Hn)|Habs].
    + assert (getRaw a (names (createExpectation d)) = raw_get a n) as ->
        by (rewrite E; now apply getRaw_first_present).
      rewrite raw_get_not_nullish by assumption.
      assert (In n (names (createExpectation d))) as Hin
        by (rewrite E; apply in_elt).
      unfold raw_get in *. destruct (raw a !! n) as [f|] eqn:Ef.
      * left. exists n, f. auto.
      * right. left. exists n.
        destruct (inherited_cases n) as [[Hm Hv]|[_ Hv]]; [|congruence].
        rewrite Hv. auto.
    + right. right. split.
      * intros n Hn. now apply raw_get_undefined_iff, Habs.
      * now rewrite (getRaw_absent a _ Habs).
Qed.

(** ** How the setters compose *)

Section CallProperties.

Variables bold italic gray : jsstring -> jsstring.
Variable inspect : value -> jsstring.

Local Abbreviation call_on := (perform bold italic gray inspect).
Local Abbreviation calls_on := (perform_all bold italic gray inspect).

(** The fields after a sequence of calls are those the last setter of each
    kind assigned. *)
Fixpoint last_description (cs : list call) (d : option jsstring)
    : option jsstring :=
  match cs with
  | [] => d
  | CallSetDescription d' :: r => last_description r (Some d')
  | _ :: r => last_description r d
  end.

Fixpoint last_version (cs : list call) (v : option jsstring)
    : option jsstring :=
  match cs with
  | [] => v
  | CallSetVersion v' :: r =>
      last_version r (Some (regexp_replace match_version (fun p1 => p1) v'))
  | _ :: r => last_version r v
  end.

(** X8: the setters do not interfere: after any sequence of calls the
    description is the argument of the last [setDescription] and the version
    the normalized argument of the last [setVersion], whatever was called
    between and after them; each is the old one when its setter was not
    called. *)
Theorem setters_last_wins (a : Arguments) (cs : list call) :
  desciprion (calls_on a cs) = last_description cs (desciprion a) /\
  version (calls_on a cs) = last_version cs (version a).
Proof.
  revert a. induction cs as [|c cs IH]; intros a; [split; reflexivity|].
  cbn [perform_all]. destruct (IH (fst (call_on a c))) as [Hd Hv].
  rewrite Hd, Hv.
  destruct c; cbn [perform]; try destruct (find_expectation a name);
    split; reflexivity.
Qed.

End CallProperties.

(** ** What [setVersion] removes *)

(** Is there a [v] directly before a digit? *)
Fixpoint has_v_before_digit (s : jsstring) : bool :=
  match s with
  | c :: r => ((c =? letter_v) && starts_with_digit r) || has_v_before_digit r
  | [] => false
  end.

Lemma remove_v_length_le (s : jsstring) :
  (length (remove_v_before_digit s) <= length s)%nat.
Proof.
  induction s as [|c r IH]; simpl; [lia|].
  destruct ((c =? letter_v) && starts_with_digit r); simpl; lia.
Qed.

Lemma remove_v_length_lt (s : jsstring) :
  has_v_before_digit s = true ->
  (length (remove_v_before_digit s) < length s)%nat.
Proof.
  induction s as [|c r IH]; simpl; [discriminate|].
  pose proof (remove_v_length_le r).
  destruct ((c =? letter_v) && starts_with_digit r); simpl; [lia|].
  intros H'. specialize (IH H'). lia.
Qed.

Lemma remove_v_fixed_iff (s : jsstring) :
  remove_v_before_digit s = s <-> has_v_before_digit s = false.
Proof.
  split.
  - intros E. destruct (has_v_before_digit s) eqn:H; [|reflexivity].
    apply remove_v_length_lt in H. rewrite E in H. lia.
  - induction s as [|c r IH]; simpl; [reflexivity|].
    destruct ((c =? letter_v) && starts_with_digit r); simpl; [discriminate|].
    intros H. now rewrite IH.
Qed.

Lemma remove_v_keeps_others (s : jsstring) :
  List.filter (fun c => negb (c =? letter_v)) (remove_v_before_digit s)
  = List.filter (fun c => negb (c =? letter_v)) s.
Proof.
  induction s as [|c r IH]; simpl; [reflexivity|].
  destruct (c =? letter_v) eqn:Ec; simpl.
  - destruct (starts_with_digit r); simpl; [assumption|]. now rewrite Ec.
  - now rewrite Ec, IH.
Qed.

Lemma remove_v_sublist (s : jsstring) : sublist (remove_v_before_digit s) s.
Proof.
  induction s as [|c r IH]; simpl; [constructor|].
  destruct ((c =? letter_v) && starts_with_digit r); now constructor.
Qed.

(** X9: the version that [setVersion] stores is its argument with some of
    the letters [v] deleted and nothing else changed; it is the argument
    itself exactly when no [v] stands directly before a digit. *)
Theorem setVersion_only_drops_v (a : Arguments) (s : jsstring) :
  exists out,
    version (setVersion a s) = Some out /\
    sublist out s /\
    List.filter (fun c => negb (c =? letter_v)) out
    = List.filter (fun c => negb (c =? letter_v)) s /\
    (length out <= length s)%nat /\
    (out = s <-> has_v_before_digit s = false).
Proof.
  exists (remove_v_before_digit s). split.
  - simpl. unfold regexp_replace. now rewrite replace_version by lia.
  - split; [apply remove_v_sublist|]. split; [apply remove_v_keeps_others|].
    split; [apply remove_v_length_le|apply remove_v_fixed_iff].
Qed.

(** ** The description of an expectation *)

(** X10: the normalized description is [null] exactly when the declaration
    has no description or an empty one; otherwise it is the declared text
    trimmed, which is the empty string, not [null], for a description of
    white space only. *)
Theorem createDescription_cases (des : option jsstring) :
  (createDescription des = None <-> des = None \/ des = Some []) /\
  (forall d, des = Some d -> d <> [] ->
     createDescription des = Some (trim d) /\ trimmed (trim d)) /\
  (forall d, des = Some d -> d <> [] ->
     Forall (fun c => is_ws c = true) d -> createDescription des = Some []).
Proof.
  split; [|split].
  - destruct des as [[|c d]|]; simpl; split; auto; try discriminate.
    + intros [H|H]; discriminate.
  - intros d -> Hne. destruct d as [|c d]; [congruence|]. simpl.
    split; [reflexivity|apply trim_idempotent].
  - intros d -> Hne Hws. destruct d as [|c d]; [congruence|].
    cbn [createDescription to_boolean length Nat.eqb negb].
    f_equal. now apply trim_nil_iff.
Qed.

(** ** The aliases of a string name *)

Lemma filter_span_separator (s : jsstring) :
  List.filter (fun c => negb (sepchar c)) (span is_ws s) = [].
Proof.
  induction s as [|c s IH]; simpl; [reflexivity|].
  destruct (is_ws c) eqn:E; simpl; [|reflexivity].
  unfold sepchar. now rewrite E.
Qed.

Lemma filter_skip_separator (s : jsstring) :
  List.filter (fun c => negb (sepchar c)) (skip is_ws s)
  = List.filter (fun c => negb (sepchar c)) s.
Proof.
  rewrite <- (span_skip is_ws s) at 2.
  now rewrite List.filter_app, filter_span_separator.
Qed.

Lemma filter_trim_separator (s : jsstring) :
  List.filter (fun c => negb (sepchar c)) (trim s)
  = List.filter (fun c => negb (sepchar c)) s.
Proof.
  unfold trim, trimEnd, trimStart.
  rewrite List.filter_rev, filter_skip_separator, List.filter_rev, rev_involutive.
  apply filter_skip_separator.
Qed.

(** What a separator match consumes is white space and commas only. *)
Lemma match_separator_drops (s : jsstring) (len : nat) :
  match_separator s = Some len ->
  List.filter (fun c => negb (sepchar c)) (drop len s)
  = List.filter (fun c => negb (sepchar c)) s.
Proof.
  destruct s as [|c r]; [discriminate|].
  destruct (is_ws c) eqn:E.
  - rewrite (match_separator_ws c r E). intros H.
    assert (len = length (span is_ws (c :: r))) as -> by congruence.
    rewrite drop_span. apply filter_skip_separator.
  - unfold match_separator. rewrite E.
    destruct (c =? comma) eqn:Ec; [|discriminate]. intros [= <-].
    change (drop (S (length (span is_ws r))) (c :: r))
      with (drop (length (span is_ws r)) r).
    rewrite drop_span, filter_skip_separator.
    cbn [List.filter]. unfold sepchar at 2. now rewrite E, Ec.
Qed.

Lemma split_loop_concat (fuel : nat) (tok rest : jsstring) :
  (length rest < fuel)%nat ->
  concat (split_loop fuel match_separator tok rest)
  = tok ++ List.filter (fun c => negb (sepchar c)) rest.
Proof.
  revert tok rest. induction fuel as [|fuel IH]; intros tok rest Hlen; [lia|].
  destruct rest as [|c r]; [simpl; now rewrite !app_nil_r|].
  cbn [split_loop].
  destruct (match_separator (c :: r)) as [len|] eqn:E.
  - pose proof (match_separator_Some _ _ E) as Hpos.
    destruct len as [|len]; [lia|]. cbn [Nat.eqb andb concat].
    rewrite IH by (rewrite length_drop; simpl in *; lia).
    now rewrite (match_separator_drops _ _ E).
  - apply match_separator_None in E.
    rewrite IH by (simpl in *; lia).
    cbn [List.filter]. rewrite E. simpl. now rewrite <- app_assoc.
Qed.

Lemma split_loop_not_nil (fuel : nat) (m : jsstring -> option nat)
    (tok rest : jsstring) :
  split_loop fuel m tok rest <> [].
Proof.
  revert tok rest. induction fuel as [|fuel IH]; intros tok rest; [discriminate|].
  destruct rest as [|c r]; [discriminate|]. cbn [split_loop].
  destruct (m (c :: r)) as [len|]; [|apply IH].
  destruct (Nat.eqb len 0 && Nat.eqb (length tok) 0); [apply IH|discriminate].
Qed.

(** X11: a string name always yields at least one alias, and the aliases
    put together are the name without its white space and commas: the
    split loses no other code unit and keeps their order. *)
Theorem createNames_string_text (s : jsstring) :
  createNames (NameString s) <> [] /\
  concat (createNames (NameString s))
  = List.filter (fun c => negb (sepchar c)) s.
Proof.
  simpl. rewrite <- (filter_trim_separator s).
  destruct (trim s) as [|c r] eqn:E; [split; [discriminate|reflexivity]|].
  unfold regexp_split. split; [apply split_loop_not_nil|].
  rewrite split_loop_concat by lia. reflexivity.
Qed.

(** ** Normalizing aliases again *)

Lemma createNames_all_trimmed (n : name_type) : Forall trimmed (createNames n).
Proof.
  destruct n as [s|l]; simpl.
  - eapply Forall_impl; [apply regexp_split_no_separator|].
    intros t Ht. now apply trim_no_ws, sepchar_not_ws.
  - apply Forall_forall. intros t Ht.
    apply list_elem_of_In, in_map_iff in Ht as (m & <- & _). apply trim_idempotent.
Qed.

Lemma map_trim_trimmed (l : list jsstring) :
  Forall trimmed l -> List.map trim l = l.
Proof. induction 1 as [|t l Ht _ IH]; simpl; [reflexivity|]. now rewrite Ht, IH. Qed.

Lemma join_cons (sep t t' : jsstring) (ts : list jsstring) :
  join sep (t :: t' :: ts) = t ++ sep ++ join sep (t' :: ts).
Proof. reflexivity. Qed.

Lemma comma_join_starts_clean (l : list jsstring) :
  Forall (Forall (fun c => sepchar c = false)) l ->
  starts_clean (join [comma] l).
Proof.
  intros H. destruct H as [|t l Ht Hl]; [exact I|].
  destruct Ht as [|c t Hc _].
  - destruct l as [|t' l]; [exact I|reflexivity].
  - unfold sepchar in Hc. apply orb_false_iff in Hc as [Hc _].
    destruct l; exact Hc.
Qed.

Lemma comma_join_no_ws (l : list jsstring) :
  Forall (Forall (fun c => sepchar c = false)) l ->
  Forall (fun c => is_ws c = false) (join [comma] l).
Proof.
  induction 1 as [|t l Ht Hl IH]; [constructor|].
  destruct l as [|t' l]; [now apply sepchar_not_ws|].
  rewrite join_cons. apply Forall_app. split; [now apply sepchar_not_ws|].
  constructor; [reflexivity|exact IH].
Qed.

Lemma span_starts_clean (s : jsstring) : starts_clean s -> span is_ws s = [].
Proof. destruct s as [|c s]; simpl; [reflexivity|]. now intros ->. Qed.

Lemma split_loop_comma_join (ts : list jsstring) :
  forall (t : jsstring) (fuel : nat) (tok : jsstring),
    Forall (Forall (fun c => sepchar c = false)) (t :: ts) ->
    (length (join [comma] (t :: ts)) < fuel)%nat ->
    split_loop fuel match_separator tok (join [comma] (t :: ts))
    = (tok ++ t) :: ts.
Proof.
  induction ts as [|t' ts IH]; intros t fuel tok Hall Hlen;
    inversion Hall as [|? ? Ht Hts]; subst.
  - cbn [join] in *. rewrite <- (app_nil_r t) at 1.
    rewrite split_loop_token by (auto; simpl; lia).
    destruct (fuel - length t)%nat eqn:E; [lia|reflexivity].
  - rewrite join_cons in *. rewrite !length_app in Hlen.
    rewrite split_loop_token by (auto; rewrite !length_app; lia).
    destruct (fuel - length t)%nat as [|fuel'] eqn:E; [cbn [length] in Hlen; lia|].
    change ([comma] ++ join [comma] (t' :: ts))
      with (comma :: join [comma] (t' :: ts)).
    cbn [split_loop]. rewrite match_separator_comma.
    rewrite (span_starts_clean _ (comma_join_starts_clean _ Hts)).
    cbn [length Nat.eqb andb drop skipn]. rewrite drop_0.
    rewrite IH; [reflexivity|assumption|cbn [length] in Hlen; lia].
Qed.

Lemma createNames_comma_join (l : list jsstring) :
  l <> [] -> Forall (Forall (fun c => sepchar c = false)) l ->
  createNames (NameString (join [comma] l)) = l.
Proof.
  intros Hne Hall. simpl.
  rewrite (trim_no_ws _ (comma_join_no_ws l Hall)).
  destruct l as [|t ts]; [congruence|].
  destruct (join [comma] (t :: ts)) as [|c r] eqn:E.
  - destruct ts as [|t' ts]; [simpl in E; now subst|].
    rewrite join_cons in E. now destruct t.
  - unfold regexp_split. rewrite <- E.
    now rewrite split_loop_comma_join by (auto; lia).
Qed.

(** X12: the aliases of an expectation are stable under the normalizer:
    declared again as an array they come back as they are, and the aliases
    of a string name, joined by commas and declared as a string again, come
    back as they are too. *)
Theorem createNames_again (n : name_type) (s : jsstring) :
  createNames (NameArray (createNames n)) = createNames n /\
  createNames (NameString (join [comma] (createNames (NameString s))))
  = createNames (NameString s).
Proof.
  split.
  - apply (map_trim_trimmed _ (createNames_all_trimmed n)).
  - apply createNames_comma_join.
    + simpl. destruct (trim s); [discriminate|apply split_loop_not_nil].
    + apply regexp_split_no_separator.
Qed.

(** X13: any non-empty list of aliases that hold no white space and no
    comma can be declared as one string, the aliases joined by commas: the
    normalizer gives back the list, empty aliases included. *)
Theorem createNames_of_comma_list (l : list jsstring) :
  l <> [] -> Forall (Forall (fun c => sepchar c = false)) l ->
  createNames (NameString (join [comma] l)) = l
  /\ createNames (NameString (join [comma] l)) = createNames (NameArray l).
Proof.
  intros Hne Hall. rewrite (createNames_comma_join l Hne Hall).
  split; [reflexivity|]. simpl. symmetry. apply map_trim_trimmed.
  eapply Forall_impl; [exact Hall|].
  intros t Ht. now apply trim_no_ws, sepchar_not_ws.
Qed.

(** ** Joining and splitting lines *)

Lemma join_app (sep : jsstring) (l1 l2 : list jsstring) :
  l1 <> [] -> l2 <> [] ->
  join sep (l1 ++ l2) = join sep l1 ++ sep ++ join sep l2.
Proof.
  intros H1 H2. induction l1 as [|x l1 IH]; [congruence|].
  destruct l1 as [|y l1].
  - destruct l2; [congruence|reflexivity].
  - change (join sep ((x :: y :: l1) ++ l2))
      with (x ++ sep ++ join sep ((y :: l1) ++ l2)).
    rewrite IH by discriminate. rewrite join_cons. now rewrite <- !app_assoc.
Qed.

Lemma join_wrap (sep : jsstring) (l : list jsstring) :
  l <> [] -> join sep ([] :: l ++ [[]]) = sep ++ join sep l ++ sep.
Proof.
  intros H. change ([] :: l ++ [[]]) with ([[]] ++ (l ++ [[]])).
  rewrite join_app by (try discriminate; now destruct l).
  rewrite join_app by (try discriminate; assumption).
  simpl. now rewrite app_nil_r.
Qed.

Lemma split_on_cons_form (sep : char) (s : jsstring) :
  exists t ts, split_on sep s = t :: ts.
Proof.
  induction s as [|c r (t & ts & IH)]; simpl; [now exists [], []|].
  destruct (c =? sep); [now exists [], (split_on sep r)|].
  rewrite IH. now exists (c :: t), ts.
Qed.

Lemma join_split_on (sep : char) (s : jsstring) :
  join [sep] (split_on sep s) = s.
Proof.
  induction s as [|c r IH]; simpl; [reflexivity|].
  destruct (split_on_cons_form sep r) as (t & ts & E).
  destruct (c =? sep) eqn:Ec.
  - apply N.eqb_eq in Ec. subst c. rewrite E in *.
    rewrite join_cons. cbn [app]. now rewrite IH.
  - rewrite E in *. destruct ts as [|t' ts].
    + cbn [join] in *. now rewrite IH.
    + rewrite join_cons in *. cbn [app] in *. now rewrite IH.
Qed.

Lemma split_on_pieces (sep : char) (s : jsstring) :
  Forall (Forall (fun c => c <> sep)) (split_on sep s).
Proof.
  induction s as [|c r IH]; simpl; [repeat constructor|].
  destruct (c =? sep) eqn:Ec; [now constructor|].
  apply N.eqb_neq in Ec.
  destruct (split_on sep r) as [|t ts]; [repeat constructor; assumption|].
  inversion IH; subst. constructor; [now constructor|assumption].
Qed.

Lemma split_on_length (sep : char) (s : jsstring) :
  length (split_on sep s)
  = S (length (List.filter (fun c => c =? sep) s)).
Proof.
  induction s as [|c r IH]; simpl; [reflexivity|].
  destruct (c =? sep); simpl; [now rewrite IH|].
  destruct (split_on sep r); simpl in *; [discriminate|assumption].
Qed.

(** ** The layout of the help message *)

(** The declaration without its description. *)
Definition without_description (d : ExpectationType) : ExpectationType :=
  {| ex_name := ex_name d; ex_default := ex_default d;
     ex_description := None; ex_convertor := ex_convertor d |}.

Lemma join_head_not_nil (sep x : jsstring) (l : list jsstring) :
  x <> [] -> join sep (x :: l) <> [].
Proof. intros H. destruct l; simpl; [assumption|]. now destruct x. Qed.

Section HelpLayout.

Variables bold italic gray : jsstring -> jsstring.
Variable inspect : value -> jsstring.

Local Abbreviation lines := (doc_lines bold gray inspect).
Local Abbreviation block := (doc bold gray inspect).
Local Abbreviation blocks := (docs bold gray inspect).
Local Abbreviation help := (getHelpMessage bold italic gray inspect).

(** The line that shows a default. *)
Definition default_line (v : value) : jsstring :=
  indent ++ gray default_label ++ js " " ++ inspect v.

Lemma doc_lines_head (ex : Expectation) :
  exists tl, lines ex = header bold ex :: tl.
Proof.
  unfold doc_lines, header.
  destruct (description ex) as [des|]; [destruct (to_boolean (VStr des))|];
    destruct (default ex); eexists; reflexivity.
Qed.

Lemma doc_wrap (ex : Expectation) :
  block ex = [newline] ++ join [newline] (lines ex) ++ [newline].
Proof.
  unfold doc. apply join_wrap.
  destruct (doc_lines_head ex) as (tl & ->). discriminate.
Qed.

Lemma doc_not_nil (ex : Expectation) : block ex <> [].
Proof. rewrite doc_wrap. discriminate. Qed.

Lemma docs_nil_iff (a : Arguments) : blocks a = [] <-> expectations a = [].
Proof.
  unfold docs. split; [|now intros ->].
  destruct (expectations a) as [|ex l]; [reflexivity|].
  intros H. exfalso. revert H. apply join_head_not_nil, doc_not_nil.
Qed.

(** X14: a declared default other than [null] and [undefined] is shown on the
    last line of its block, a falsy one ([0], [false], the empty string)
    like any other. *)
Theorem default_line_shown (d : ExpectationType) :
  ex_default d <> VUndefined -> ex_default d <> VNull ->
  last (lines (createExpectation d)) = Some (default_line (ex_default d))
  /\ In (default_line (ex_default d)) (lines (createExpectation d)).
Proof.
  intros Hu Hn.
  assert (exists front,
             lines (createExpectation d) = front ++ [default_line (ex_default d)])
    as (front & ->).
  { unfold doc_lines, default_line. cbn [default createExpectation].
    destruct (ex_default d); try congruence; eexists; reflexivity. }
  split; [apply last_snoc|]. apply in_elt.
Qed.

(** X15: an empty string given to a setter counts as nothing set: the help
    message is the one without a version, or without a description. *)
Theorem empty_metadata_is_unset (a : Arguments) :
  (version a = None -> help (setVersion a []) = help a) /\
  (desciprion a = None -> help (setDescription a []) = help a).
Proof.
  split; intros H; unfold getHelpMessage, metadata_lines, docs; simpl;
    now rewrite H.
Qed.

(** X16: the help message is empty exactly when there is no expectation and
    the block of description and version is empty; with a description, a
    version and at least one expectation it is the description, a CR LF, the
    decorated version line, a line feed and the blocks of the expectations;
    with the description alone it is the description, a line feed and the
    blocks. *)
Theorem help_layout (a : Arguments) :
  (help a = [] <->
   join [0x0D; 0x0A] (metadata_lines italic gray a) = [] /\ expectations a = []) /\
  (forall d v,
      desciprion a = Some d -> d <> [] -> version a = Some v -> v <> [] ->
      expectations a <> [] ->
      help a = d ++ [0x0D; 0x0A] ++ gray (italic (js "Verze: " ++ v))
                 ++ [newline] ++ blocks a) /\
  (forall d,
      desciprion a = Some d -> d <> [] -> version a = None ->
      expectations a <> [] ->
      help a = d ++ [newline] ++ blocks a).
Proof.
  split; [|split].
  - unfold getHelpMessage. rewrite <- docs_nil_iff.
    destruct (join _ (metadata_lines italic gray a)) as [|c r];
      destruct (blocks a) as [|c' r']; simpl; split; intros H;
      try discriminate; try (destruct H; discriminate); auto.
  - intros d v Hd Hdne Hv Hvne Hexp.
    unfold getHelpMessage, metadata_lines. rewrite Hd, Hv.
    destruct d as [|c d]; [congruence|]. destruct v as [|c' v]; [congruence|].
    cbn [to_boolean length Nat.eqb negb app join].
    destruct (blocks a) as [|c'' r] eqn:E; [apply docs_nil_iff in E; congruence|].
    cbn [List.filter length Nat.eqb negb app join]. now rewrite <- !app_assoc.
  - intros d Hd Hdne Hv Hexp.
    unfold getHelpMessage, metadata_lines. rewrite Hd, Hv.
    destruct d as [|c d]; [congruence|].
    cbn [to_boolean length Nat.eqb negb app join].
    destruct (blocks a) as [|c'' r] eqn:E; [apply docs_nil_iff in E; congruence|].
    reflexivity.
Qed.

(** X17: the block of an expectation is its lines joined by line feeds
    between two line feeds, the first line being the header; the blocks of a
    registry made of two parts are the blocks of the first part, a line
    feed, and the blocks of the second, in declaration order. *)
Theorem blocks_layout (a : Arguments) (e1 e2 : list Expectation) :
  (forall ex, block ex = [newline] ++ join [newline] (lines ex) ++ [newline]
              /\ exists tl, lines ex = header bold ex :: tl) /\
  (expectations a = e1 ++ e2 -> e1 <> [] -> e2 <> [] ->
   blocks a = join [newline] (List.map block e1) ++ [newline]
              ++ join [newline] (List.map block e2)).
Proof.
  split.
  - intros ex. split; [apply doc_wrap|apply doc_lines_head].
  - intros He H1 H2. unfold docs. rewrite He, List.map_app.
    apply join_app; now destruct e1, e2.
Qed.

(** X18: a description is shown one line for each of its pieces between line
    feeds, each indented and decorated, after the header and before the
    default line; the pieces joined by line feeds are the description, and
    there is one more of them than line feeds in the description. *)
Theorem description_rendering (ex : Expectation) (des : jsstring) :
  description ex = Some des -> des <> [] ->
  exists pieces,
    lines ex
    = header bold ex :: List.map (fun l => indent ++ gray l) pieces
        ++ match default ex with VNull => [] | v => [default_line v] end /\
    join [newline] pieces = des /\
    Forall (Forall (fun c => c <> newline)) pieces /\
    length pieces = S (length (List.filter (fun c => c =? newline) des)).
Proof.
  intros Hd Hne. exists (split_on newline des).
  split; [|split; [apply join_split_on|split;
                    [apply split_on_pieces|apply split_on_length]]].
  unfold doc_lines, header, default_line. rewrite Hd.
  destruct des as [|c r]; [congruence|].
  cbn [to_boolean length Nat.eqb negb].
  destruct (default ex); cbn [app]; now rewrite ?app_nil_r.
Qed.

(** X19: a description of white space only is shown like no description:
    the block has no description line, not an empty one. *)
Theorem blank_description_not_shown (d : ExpectationType) (w : jsstring) :
  ex_description d = Some w -> Forall (fun c => is_ws c = true) w ->
  lines (createExpectation d) = lines (createExpectation (without_description d)).
Proof.
  intros Hd Hws. unfold doc_lines.
  cbn [names description default createExpectation without_description
       ex_name ex_default ex_description].
  rewrite Hd. destruct w as [|c w]; [reflexivity|].
  cbn [createDescription to_boolean length Nat.eqb negb].
  assert (trim (c :: w) = []) as -> by now apply trim_nil_iff.
  reflexivity.
Qed.

End HelpLayout.

(** ** Names that no declaration can hold *)

Lemma undeclared_not_found (a : Arguments) (name : jsstring) :
  (forall ex, In ex (expectations a) -> ~ In name (names ex)) ->
  get a name = Throw (mk_error BuiltinError (not_found_message name)).
Proof.
  intros H. unfold get.
  assert (find_expectation a name = None) as ->; [|reflexivity].
  apply array_find_None. intros ex Hex.
  now rewrite (alias_test_false name (names ex) (H ex Hex)).
Qed.

(** X20: [get] compares its argument with the normalized aliases as it is
    given: a name with white space at an end is never found, and among
    expectations that are all declared by a string, neither is a name that
    holds white space or a comma anywhere. *)
Theorem get_unnormalized_name_faults (a : Arguments)
    (decls : list ExpectationType) (name : jsstring) :
  expectations a = createExpectations decls ->
  (trim name <> name ->
   get a name = Throw (mk_error BuiltinError (not_found_message name))) /\
  ((forall d, In d decls -> exists s, ex_name d = NameString s) ->
   Exists (fun c => sepchar c = true) name ->
   get a name = Throw (mk_error BuiltinError (not_found_message name))).
Proof.
  intros Hexp. split.
  - intros Hne. apply undeclared_not_found. intros ex Hex Hin.
    rewrite Hexp in Hex. unfold createExpectations in Hex.
    apply in_map_iff in Hex as (d & <- & _).
    pose proof (createNames_all_trimmed (ex_name d)) as Ht.
    rewrite Forall_forall in Ht. apply Hne, Ht. now apply list_elem_of_In.
  - intros Hstr Hsep. apply undeclared_not_found. intros ex Hex Hin.
    rewrite Hexp in Hex. unfold createExpectations in Hex.
    apply in_map_iff in Hex as (d & <- & Hd).
    destruct (Hstr d Hd) as (s & Hs). cbn [names createExpectation] in Hin.
    rewrite Hs in Hin.
    pose proof (regexp_split_no_separator (trim s)) as Hclean.
    rewrite Forall_forall in Hclean.
    specialize (Hclean name (proj2 (list_elem_of_In _ _) Hin)).
    apply Exists_exists in Hsep as (c & Hc & Hcs).
    rewrite Forall_forall in Hclean. specialize (Hclean c Hc). congruence.
Qed.

(** * Further instances *)

(** [{ name: "host", description: "The host\nto bind" }] *)
Definition host_decl : ExpectationType :=
  {| ex_name := NameString (js "host");
     ex_default := VUndefined;
     ex_description := Some (js "The host" ++ [newline] ++ js "to bind");
     ex_convertor := None |}.

(** [{ name: "quiet", description: "  " }] *)
Definition quiet_decl : ExpectationType :=
  {| ex_name := NameString (js "quiet");
     ex_default := VUndefined;
     ex_description := Some (js "  ");
     ex_convertor := None |}.

Lemma get_first_declared_witness :
  get (constructor port_flags [port_decl; pid_decl]) (js "p")
  = Return (VStr (js "8080")).
Proof.
  rewrite (get_first_declared (constructor port_flags [port_decl; pid_decl])
             (js "p") [] [createExpectation pid_decl]
             (createExpectation port_decl)).
  - reflexivity.
  - reflexivity.
  - discriminate.
  - vm_compute. auto.
  - intros ex' [].
Defined.

Lemma get_alias_equivalence_witness :
  get (constructor port_flags [port_decl; pid_decl]) (js "port")
  = get (constructor port_flags [port_decl; pid_decl]) (js "p").
Proof.
  apply (get_alias_equivalence (constructor port_flags [port_decl; pid_decl])
           (js "port") (js "p") [] [createExpectation pid_decl]
           (createExpectation port_decl)).
  - reflexivity.
  - discriminate.
  - discriminate.
  - vm_compute. auto.
  - vm_compute. auto.
  - intros ex' [].
Defined.

Lemma get_never_passes_undefined_witness :
  exists v, v <> VUndefined
            /\ get (constructor ∅ [null_decl]) (js "x") = Return v.
Proof.
  destruct (get_never_passes_undefined (constructor ∅ [null_decl]) [null_decl]
              (js "x") (createExpectation null_decl) eq_refl eq_refl)
    as (v & Hv & Hget & _).
  exists v. split; [exact Hv|exact Hget].
Defined.

Lemma get_without_convertor_witness :
  exists v, get (constructor port_flags [port_decl]) (js "port") = Return v
            /\ v <> VUndefined.
Proof.
  destruct (get_without_convertor (constructor port_flags [port_decl]) port_decl
              (js "port") eq_refl eq_refl) as (v & Hget & Hv & _).
  exists v. split; [exact Hget|exact Hv].
Defined.

Lemma createNames_of_comma_list_witness :
  createNames (NameString (join [comma] [js "port"; []; js "p"]))
  = [js "port"; []; js "p"].
Proof.
  apply (proj1 (createNames_of_comma_list [js "port"; []; js "p"]
                  ltac:(discriminate) ltac:(repeat constructor))).
Defined.

Lemma default_line_shown_witness :
  last (doc_lines (fun s => s) (fun s => s) (fun _ => js "0")
          (createExpectation zero_decl))
  = Some (default_line (fun s => s) (fun _ => js "0") (VNum 0)).
Proof.
  apply (proj1 (default_line_shown (fun s => s) (fun s => s) (fun _ => js "0")
                  zero_decl ltac:(discriminate) ltac:(discriminate))).
Defined.

Lemma description_rendering_witness :
  exists pieces,
    join [newline] pieces = js "The host" ++ [newline] ++ js "to bind"
    /\ length pieces = 2%nat.
Proof.
  destruct (description_rendering (fun s => s) (fun s => s) (fun _ => [])
              (createExpectation host_decl)
              (js "The host" ++ [newline] ++ js "to bind"))
    as (pieces & _ & Hjoin & _ & Hlen).
  - reflexivity.
  - discriminate.
  - exists pieces. split; [exact Hjoin|exact Hlen].
Defined.

Lemma blank_description_not_shown_witness :
  doc_lines (fun s => s) (fun s => s) (fun _ => []) (createExpectation quiet_decl)
  = doc_lines (fun s => s) (fun s => s) (fun _ => [])
      (createExpectation (without_description quiet_decl)).
Proof.
  apply (blank_description_not_shown (fun s => s) (fun s => s) (fun _ => [])
           quiet_decl (js "  ")).
  - reflexivity.
  - repeat constructor.
Defined.

Lemma get_unnormalized_name_faults_witness :
  get (constructor port_flags [port_decl]) (js " port")
  = Throw (mk_error BuiltinError (not_found_message (js " port"))).
Proof.
  apply (proj1 (get_unnormalized_name_faults
                  (constructor port_flags [port_decl])
                  [port_decl] (js " port") eq_refl)).
  intros H. vm_compute in H. discriminate H.
Defined.
